(** * WorldVoice speech driver: the speech-instruction compiler

    A shallow embedding of [SynthDriver.speak] and of the passes it runs
    (addon/synthDrivers/WorldVoice/__init__.py): comma stripping, the
    numeric tagger ([resplit], [coercionNumberLangChange]), the script
    spacer ([patchedSpaceSpeechSequence]), normalization, the stabilizer
    loop and the per-engine multiplexer loop.

    Python strings are lists of code points.  Backend calls made on voice
    instances are collected, in order, in a trace. *)

From Stdlib Require Import PrimFloat.
From Stdlib Require SpecFloat FloatOps.
From Stdlib Require Import List ListSet ZArith NArith String Ascii
  Bool Lia Permutation DecimalString.
Import ListNotations.

Local Open Scope Z_scope.

(** ** Python strings *)

Module PyStr.

Definition char := N.
Definition pystr := list char.

(** An ASCII literal as a Python string. *)
Definition py (s : string) : pystr :=
  map N_of_ascii (list_ascii_of_string s).

Definition esc : char := 27%N.   (* '\x1b' *)
Definition dq : char := 34%N.    (* the double quote *)
Definition space : char := 32%N.
Definition dot : char := 46%N.

(** [str(n)] and ["%d" % n] for an int. *)
Definition dec (z : Z) : pystr := py (NilZero.string_of_int (Z.to_int z)).

(** [sep.join(l)]. *)
Fixpoint join (sep : pystr) (l : list pystr) : pystr :=
  match l with
  | [] => []
  | [x] => x
  | x :: rest => x ++ sep ++ join sep rest
  end.

(** ["".join(l)]. *)
Definition concat (l : list pystr) : pystr := List.concat l.

Fixpoint starts_with (old s : pystr) : bool :=
  match old, s with
  | [], _ => true
  | x :: old', y :: s' => N.eqb x y && starts_with old' s'
  | _ :: _, [] => false
  end.

(** [s.replace(old, new)] for a non-empty [old]: leftmost, non-overlapping.
    [skip] counts the characters of an occurrence still to be dropped. *)
Fixpoint replace_from (old new s : pystr) (skip : nat) : pystr :=
  match s with
  | [] => []
  | c :: s' =>
      match skip with
      | S k => replace_from old new s' k
      | O =>
          if starts_with old s
          then new ++ replace_from old new s' (Nat.pred (List.length old))
          else c :: replace_from old new s' O
      end
  end.

Definition replace (old new s : pystr) : pystr := replace_from old new s O.

(** [s.split(sep)] for a one-character separator. *)
Fixpoint split_char (sep : char) (s : pystr) : list pystr :=
  match s with
  | [] => [[]]
  | c :: s' =>
      match split_char sep s' with
      | [] => [[]]   (* never reached: the result is non-empty *)
      | p :: ps => if N.eqb c sep then [] :: p :: ps else (c :: p) :: ps
      end
  end.

(** Characters for which [str.isspace] holds; also [\s] of a str pattern. *)
Definition isspace (c : char) : bool :=
  ((9 <=? c) && (c <=? 13) || (28 <=? c) && (c <=? 32) || (c =? 133)
   || (c =? 160) || (c =? 5760) || (8192 <=? c) && (c <=? 8202)
   || (c =? 8232) || (c =? 8233) || (c =? 8239) || (c =? 8287)
   || (c =? 12288))%N.

Fixpoint lstrip (s : pystr) : pystr :=
  match s with
  | c :: s' => if isspace c then lstrip s' else s
  | [] => []
  end.

(** [s.strip()]. *)
Definition strip (s : pystr) : pystr := rev (lstrip (rev (lstrip s))).

(** [' '.join(s)]: the characters of [s] separated by one space. *)
Definition spaced (s : pystr) : pystr := join [space] (map (fun c => [c]) s).

Definition isdigit (c : char) : bool := ((48 <=? c) && (c <=? 57))%N.

End PyStr.
Import PyStr.

(** ** The three compiled patterns

    A backtracking matcher with the priorities of Python's [re]: a greedy
    repetition tries the longest run first, an alternation its left branch
    first.  Only the constructs of the three patterns are present. *)

Module Re.

Inductive regex :=
| Cls (p : char -> bool)          (* [...] *)
| Plus (p : char -> bool)         (* [...]+ *)
| Star (p : char -> bool)         (* [...]* *)
| Cat (r1 r2 : regex)
| Alt (r1 r2 : regex)
| Behind (p : char -> bool)       (* (?<=[...]) *)
| Ahead (p : char -> bool).       (* (?=[...]) *)

Section Matcher.
(* continuation: previous character, rest of the input, characters consumed *)
Let cont := option char -> pystr -> nat -> option nat.

Fixpoint star (p : char -> bool) (prev : option char) (s : pystr) (n : nat)
    (k : cont) : option nat :=
  match s with
  | c :: s' =>
      if p c then
        match star p (Some c) s' (S n) k with
        | Some r => Some r
        | None => k prev s n
        end
      else k prev s n
  | [] => k prev [] n
  end.

Fixpoint run (r : regex) (prev : option char) (s : pystr) (n : nat)
    (k : cont) : option nat :=
  match r with
  | Cls p =>
      match s with
      | c :: s' => if p c then k (Some c) s' (S n) else None
      | [] => None
      end
  | Plus p =>
      match s with
      | c :: s' => if p c then star p (Some c) s' (S n) k else None
      | [] => None
      end
  | Star p => star p prev s n k
  | Cat r1 r2 => run r1 prev s n (fun prev' s' n' => run r2 prev' s' n' k)
  | Alt r1 r2 =>
      match run r1 prev s n k with
      | Some x => Some x
      | None => run r2 prev s n k
      end
  | Behind p =>
      match prev with
      | Some c => if p c then k prev s n else None
      | None => None
      end
  | Ahead p =>
      match s with
      | c :: _ => if p c then k prev s n else None
      | [] => None
      end
  end.
End Matcher.

(** Length of the match of [r] that starts at the head of [s], if any. *)
Definition match_at (r : regex) (prev : option char) (s : pystr) : option nat :=
  run r prev s O (fun _ _ n => Some n).

(** The left-to-right scan shared by [findall], [split] and [sub]: every
    character is marked as outside a match, first of a match, or inside one.
    None of the three patterns matches the empty string. *)
Inductive mark := Out | Start | In.

Fixpoint marks (r : regex) (prev : option char) (s : pystr) (skip : nat)
    : list mark :=
  match s with
  | [] => []
  | c :: s' =>
      match skip with
      | S k => In :: marks r (Some c) s' k
      | O =>
          match match_at r prev s with
          | Some (S n) => Start :: marks r (Some c) s' n
          | _ => Out :: marks r (Some c) s' O
          end
      end
  end.

(** (rest of the match in progress, text up to the next match,
     the following (match, text after it) pairs) *)
Fixpoint group (ms : list mark) (s : pystr)
    : pystr * pystr * list (pystr * pystr) :=
  match ms, s with
  | m :: ms', c :: s' =>
      let '(cur, o, r) := group ms' s' in
      match m with
      | In => (c :: cur, o, r)
      | Out => ([], c :: o, r)
      | Start => ([], [], (c :: cur, o) :: r)
      end
  | _, _ => ([], [], [])
  end.

Definition pieces (r : regex) (s : pystr) : pystr * list (pystr * pystr) :=
  let '(_, o, ps) := group (marks r None s O) s in (o, ps).

(** [pattern.findall(s)] (no groups in the pattern). *)
Definition findall (r : regex) (s : pystr) : list pystr :=
  map fst (snd (pieces r s)).

(** [pattern.split(s)]. *)
Definition split (r : regex) (s : pystr) : list pystr :=
  fst (pieces r s) :: map snd (snd (pieces r s)).

(** [pattern.sub(lambda m: '', s)]. *)
Definition sub_empty (r : regex) (s : pystr) : pystr :=
  PyStr.concat (split r s).

Definition is_sign_or_digit (c : char) : bool :=
  (isdigit c || (c =? 45) || (c =? 43))%N.
Definition is_digit_dot_colon (c : char) : bool :=
  (isdigit c || (c =? 46) || (c =? 58))%N.
Definition is_comma (c : char) : bool := (c =? 44)%N.
Definition is_cjk (c : char) : bool := ((19968 <=? c) && (c <=? 40869))%N.

(** [[0-9\-\+]+[0-9.:]*[0-9]+|[0-9]] *)
Definition number_pattern : regex :=
  Alt (Cat (Plus is_sign_or_digit) (Cat (Star is_digit_dot_colon) (Plus isdigit)))
      (Cls isdigit).

(** [(?<=[0-9]),(?=[0-9])] *)
Definition comma_number_pattern : regex :=
  Cat (Behind isdigit) (Cat (Cls is_comma) (Ahead isdigit)).

(** [(?<=[\u4e00-\u9fa5])\s+(?=[\u4e00-\u9fa5])] *)
Definition chinese_space_pattern : regex :=
  Cat (Behind is_cjk) (Cat (Plus isspace) (Ahead is_cjk)).

End Re.

(** ** Speech instructions *)

(** A Python number: an int, or a float (a binary64, as Rocq's primitive
    floats are). *)
Inductive pynum :=
| PyInt (z : Z)
| PyFloat (f : float).

(** A prosody command ([PitchCommand], [RateCommand], [VolumeCommand]):
    [newValue] is the absolute setting, [multiplier] the factor it was
    built from, the int 1 or a float. *)
Record prosody := { newValue : Z; multiplier : pynum }.

(** The elements of a speech sequence, by the [isinstance] tests of the
    source.  [LangChangeCommand] is the host's class, [WVLangChangeCommand]
    the add-on's: the source tests for the two separately. *)
Inductive instr :=
| Text (s : pystr)
| IndexCommand (index : Z)
| CharacterModeCommand (state : bool)
| LangChangeCommand (lang : option string)
| WVLangChangeCommand (lang : option string)
| BreakCommand (time : Z)
| PitchCommand (p : prosody)
| RateCommand (p : prosody)
| VolumeCommand (p : prosody)
| PhonemeCommand (ipa : pystr) (text : option pystr)
| SplitCommand
| OtherSpeechCommand (tag : nat)    (* any other subclass of SpeechCommand *)
| UnknownObject (tag : nat).        (* neither a str nor a SpeechCommand *)

Definition is_str (c : instr) : bool :=
  match c with Text _ => true | _ => false end.

(** [isinstance(c, LangChangeCommand) or isinstance(c, WVLangChangeCommand)],
    with the [lang] attribute. *)
Definition lang_of (c : instr) : option (option string) :=
  match c with
  | LangChangeCommand l | WVLangChangeCommand l => Some l
  | _ => None
  end.

Definition is_lang (c : instr) : bool :=
  match lang_of c with Some _ => true | None => false end.

(** [isinstance(c, SpeechCommand)]: the command classes of the host and the
    two of the add-on's [_speechcommand] module. *)
Definition is_SpeechCommand (c : instr) : bool :=
  match c with
  | Text _ | UnknownObject _ => false
  | _ => true
  end.

Definition lang_eqb (a b : option string) : bool :=
  match a, b with
  | None, None => true
  | Some x, Some y => String.eqb x y
  | _, _ => false
  end.

(** ** The driver: settings, configuration and collaborators *)

Inductive Engine := VE | SAPI5 | Aisound.

(** A voice instance is a reference; [==] on voice instances is identity. *)
Definition voice := nat.

Inductive NumMode := ModeValue | ModeNumber.   (* "value" | "number" *)

(** An entry of [speechSymbols.symbols]. *)
Record symbol := { sym_language : option string; sym_replacement : option pystr }.

Record Driver := {
  (* config.conf["WorldVoice"]["autoLanguageSwitching"] *)
  DetectLanguageTiming_after : bool;      (* DetectLanguageTiming == 'after' *)
  useUnicodeLanguageDetection : bool;
  numberDotReplacement : pystr;
  (* settings *)
  _cni : bool;
  uwv : bool;
  _nummod : NumMode;
  _numlan : string;
  _chinesespace : Z;
  _normalization : string;
  language : option string;               (* self.language *)
  (* self.speechSymbols: None when falsy, else its [symbols] dictionary *)
  speechSymbols : option (char -> option symbol);
  (* self._voiceManager *)
  defaultVoiceInstance : voice;
  getVoiceInstanceForLanguage : string -> option voice;
  (* attributes of the voice instances; the settings are ints *)
  engine : voice -> Engine;
  pitch : voice -> Z;
  _pitch : voice -> Z;
  _rate : voice -> Z;
  _volume : voice -> Z;
  (* host and library functions *)
  CHUNK_SEPARATOR : pystr;                                  (* speech.CHUNK_SEPARATOR *)
  lower : pystr -> pystr;                                   (* str.lower *)
  normalize : string -> pystr -> pystr;                     (* unicodedata.normalize *)
  add_detected_language_commands : list instr -> list instr
}.

(** ** Numeric tagger *)

Definition digits_1234567890 : pystr := py "1234567890".

(** The entry of [translate_dict] for the digit [c], if the loop adds one. *)
Definition translate_entry (speechSymbols : option (char -> option symbol))
    (numberLanguage : string) (c : char) : option pystr :=
  match speechSymbols with
  | None => None
  | Some symbols =>
      match symbols c with
      | None => None
      | Some symbol =>
          if lang_eqb (sym_language symbol) (Some numberLanguage)
             || lang_eqb (sym_language symbol) (Some "Windows"%string)
          then match sym_replacement symbol with
               | Some (x :: r) => Some (x :: r)
               | _ => Some [c]
               end
          else None
      end
  end.

Definition translate_dict (speechSymbols : option (char -> option symbol))
    (numberLanguage : string) (c : char) : option pystr :=
  if existsb (N.eqb c) digits_1234567890
  then translate_entry speechSymbols numberLanguage c
  else None.

(** [n.translate(translate_dict)]. *)
Definition translate (d : char -> option pystr) (n : pystr) : pystr :=
  flat_map (fun c => match d c with Some r => r | None => [c] end) n.

(** The truth value of [len(n) == 1 or "number"]: the right operand is a
    non-empty string literal, which is true. *)
Definition segment_guard (n : pystr) : bool :=
  (List.length n =? 1)%nat || true.

Definition translate_segment (d : char -> option pystr) (n : pystr) : pystr :=
  if segment_guard n then translate d n else n.

(** The body of [if dot_count > 2 or mode == 'number':] up to the dot
    replacement: every segment but the last is followed by ".". *)
Fixpoint per_segment (d : char -> option pystr) (nodot_str : list pystr) : pystr :=
  match nodot_str with
  | [] => []
  | [n] => translate_segment d n
  | n :: rest => translate_segment d n ++ [dot] ++ per_segment d rest
  end.

(** [number_str] for one match [number]. *)
Definition number_string (mode : NumMode) (d : char -> option pystr)
    (dotReplacement : pystr) (number : pystr) : pystr :=
  let dot_count := List.length (split_char dot number) in
  let number_str :=
    match mode with
    | ModeValue => number
    | ModeNumber => replace (py " . ") (py ".") (spaced number)
    end in
  if (2 <? dot_count)%nat || match mode with ModeNumber => true | _ => false end
  then replace [dot] dotReplacement (per_segment d (split_char dot number_str))
  else number_str.

Definition StartNumber : option string := Some "StartNumber"%string.
Definition EndNumber : option string := Some "EndNumber"%string.

(** [resplit(pattern, string, mode, numberLanguage, speechSymbols)]. *)
Definition resplit (D : Driver) (pattern : Re.regex) (s : pystr) (mode : NumMode)
    (numberLanguage : string) (symbols : option (char -> option symbol))
    : list instr :=
  let d := translate_dict symbols numberLanguage in
  let '(first, ps) := Re.pieces pattern s in
  (* zip(others, numbers): the text before each match, then the match *)
  let fix go (other : pystr) (ps : list (pystr * pystr)) : list instr :=
    match ps with
    | [] => [Text other]
    | (number, next) :: ps' =>
        [Text other; WVLangChangeCommand StartNumber;
         Text (number_string mode d (numberDotReplacement D) number);
         WVLangChangeCommand EndNumber] ++ go next ps'
    end in
  go first ps.

(** The second loop of [coercionNumberLangChange]: only
    [WVLangChangeCommand] instances are looked at.  The synthetic markers
    are fresh objects, one per occurrence, so assigning their [lang] in
    place is a map over the list. *)
Fixpoint assign_number_langs (numberLanguage : string)
    (currentLang : option string) (result : list instr) : list instr :=
  match result with
  | [] => []
  | WVLangChangeCommand l :: rest =>
      if lang_eqb l StartNumber then
        WVLangChangeCommand (Some numberLanguage)
          :: assign_number_langs numberLanguage currentLang rest
      else if lang_eqb l EndNumber then
        WVLangChangeCommand currentLang
          :: assign_number_langs numberLanguage currentLang rest
      else
        WVLangChangeCommand l :: assign_number_langs numberLanguage l rest
  | c :: rest => c :: assign_number_langs numberLanguage currentLang rest
  end.

Definition coercionNumberLangChange (D : Driver) (speechSequence : list instr)
    (mode : NumMode) (numberLanguage : string)
    (symbols : option (char -> option symbol)) : list instr :=
  let result :=
    flat_map (fun command =>
      match command with
      | Text s => resplit D Re.number_pattern s mode numberLanguage symbols
      | _ => [command]
      end) speechSequence in
  assign_number_langs numberLanguage (language D) result.

Definition patchedNumSpeechSequence (D : Driver) (speechSequence : list instr)
    : list instr :=
  coercionNumberLangChange D speechSequence (_nummod D) (_numlan D) (speechSymbols D).

(** ** Script spacer *)

(** First loop of [patchedSpaceSpeechSequence]: consecutive strings are
    joined; the joined string (possibly empty) is put before every command
    and at the end. *)
Fixpoint join_strings (joinString : pystr) (speechSequence : list instr)
    : list instr :=
  match speechSequence with
  | [] => [Text joinString]
  | Text s :: rest => join_strings (joinString ++ s) rest
  | command :: rest => Text joinString :: command :: join_strings [] rest
  end.

(** [temp[:-1]] of the pieces each followed by a break. *)
Fixpoint with_breaks (time : Z) (result : list pystr) : list instr :=
  match result with
  | [] => []
  | [i] => [Text i]
  | i :: rest => Text i :: BreakCommand time :: with_breaks time rest
  end.

Definition split_spaces (time : Z) (command : instr) : list instr :=
  match command with
  | Text s =>
      let result := Re.split Re.chinese_space_pattern s in
      if (List.length result =? 1)%nat then [command]
      else with_breaks time result
  | _ => [command]
  end.

Definition patchedSpaceSpeechSequence (D : Driver) (speechSequence : list instr)
    : list instr :=
  if negb (_chinesespace D =? 0)
  then flat_map (split_spaces (_chinesespace D * 5)) (join_strings [] speechSequence)
  else speechSequence.

(** ** Normalization and comma stripping *)

Definition normalize_sequence (D : Driver) (speechSequence : list instr)
    : list instr :=
  if negb (String.eqb (_normalization D) "OFF")
  then map (fun command =>
              match command with
              | Text s => Text (normalize D (_normalization D) s)
              | _ => command
              end) speechSequence
  else speechSequence.

Definition strip_commas (speechSequence : list instr) : list instr :=
  map (fun command =>
         match command with
         | Text s => Text (Re.sub_empty Re.comma_number_pattern s)
         | _ => command
         end) speechSequence.

(** ** Stabilizer *)

(** The loop over [speechSequence] with its two lists, and the final
    [stables.extend(unstables)]. *)
Fixpoint stabilize_loop (speechSequence stables unstables : list instr)
    : list instr :=
  match speechSequence with
  | [] => stables ++ unstables
  | command :: rest =>
      if is_lang command then
        stabilize_loop rest (stables ++ command :: unstables) []
      else if is_str command then
        stabilize_loop rest (stables ++ unstables ++ [command]) []
      else
        stabilize_loop rest stables (unstables ++ [command])
  end.

Definition stabilize (speechSequence : list instr) : list instr :=
  stabilize_loop speechSequence [] [].

(** ** The multiplexer loop of [speak] *)

(** A call made on a voice instance. *)
Inductive call :=
| Speak (v : voice) (payload : pystr)      (* v.speak(payload) *)
| Breaks (v : voice) (time : Z)            (* v.breaks(time) *)
| Index (v : voice) (index : Z).           (* v.index(index) *)

Inductive logentry :=
| DebugWarning (c : instr)      (* "Unsupported speech command: %s" *)
| Error (c : instr).            (* "Unknown speech: %s" *)

(** The exceptions that leave [speak]: a local read before it is bound, an
    attribute the object does not have, and the two that the conversions
    between ints and floats raise. *)
Inductive exn :=
| UnboundLocalError (name : string)
| AttributeError (name : string)
| ValueError (msg : string)
| OverflowError (msg : string).

(** [tags]: an insertion-ordered dict from tag name to its attributes. *)
Definition attrs := list (string * Z).
Definition tagdict := list (string * attrs).

Fixpoint dict_set (k : string) (v : attrs) (d : tagdict) : tagdict :=
  match d with
  | [] => [(k, v)]
  | (k', v') :: d' =>
      if String.eqb k k' then (k, v) :: d' else (k', v') :: dict_set k v d'
  end.

Definition dict_del (k : string) (d : tagdict) : tagdict :=
  filter (fun e => negb (String.eqb k (fst e))) d.

(** The local variables of [speak], with the calls and log entries so far.
    [item] is [None] until one of the branches that assign it has run. *)
Record state := {
  voiceInstance : voice;
  currentLanguage : option string;
  chunks : list pystr;
  hasText : bool;
  charMode : bool;
  textList : list pystr;
  tags : tagdict;
  tagsChanged : bool;
  openedTags : list string;
  item : option instr;
  calls : list call;
  logs : list logentry
}.

Definition set_voice v st := {|
  voiceInstance := v; currentLanguage := currentLanguage st;
  chunks := chunks st; hasText := hasText st; charMode := charMode st;
  textList := textList st; tags := tags st; tagsChanged := tagsChanged st;
  openedTags := openedTags st; item := item st; calls := calls st;
  logs := logs st |}.

Definition set_language l st := {|
  voiceInstance := voiceInstance st; currentLanguage := l;
  chunks := chunks st; hasText := hasText st; charMode := charMode st;
  textList := textList st; tags := tags st; tagsChanged := tagsChanged st;
  openedTags := openedTags st; item := item st; calls := calls st;
  logs := logs st |}.

Definition set_chunks cs ht st := {|
  voiceInstance := voiceInstance st; currentLanguage := currentLanguage st;
  chunks := cs; hasText := ht; charMode := charMode st;
  textList := textList st; tags := tags st; tagsChanged := tagsChanged st;
  openedTags := openedTags st; item := item st; calls := calls st;
  logs := logs st |}.

Definition set_charMode b st := {|
  voiceInstance := voiceInstance st; currentLanguage := currentLanguage st;
  chunks := chunks st; hasText := hasText st; charMode := b;
  textList := textList st; tags := tags st; tagsChanged := tagsChanged st;
  openedTags := openedTags st; item := item st; calls := calls st;
  logs := logs st |}.

Definition set_textList tl st := {|
  voiceInstance := voiceInstance st; currentLanguage := currentLanguage st;
  chunks := chunks st; hasText := hasText st; charMode := charMode st;
  textList := tl; tags := tags st; tagsChanged := tagsChanged st;
  openedTags := openedTags st; item := item st; calls := calls st;
  logs := logs st |}.

Definition set_tags t changed st := {|
  voiceInstance := voiceInstance st; currentLanguage := currentLanguage st;
  chunks := chunks st; hasText := hasText st; charMode := charMode st;
  textList := textList st; tags := t; tagsChanged := changed;
  openedTags := openedTags st; item := item st; calls := calls st;
  logs := logs st |}.

Definition set_openedTags o st := {|
  voiceInstance := voiceInstance st; currentLanguage := currentLanguage st;
  chunks := chunks st; hasText := hasText st; charMode := charMode st;
  textList := textList st; tags := tags st; tagsChanged := tagsChanged st;
  openedTags := o; item := item st; calls := calls st;
  logs := logs st |}.

Definition set_item c st := {|
  voiceInstance := voiceInstance st; currentLanguage := currentLanguage st;
  chunks := chunks st; hasText := hasText st; charMode := charMode st;
  textList := textList st; tags := tags st; tagsChanged := tagsChanged st;
  openedTags := openedTags st; item := Some c; calls := calls st;
  logs := logs st |}.

Definition emit (c : call) st := {|
  voiceInstance := voiceInstance st; currentLanguage := currentLanguage st;
  chunks := chunks st; hasText := hasText st; charMode := charMode st;
  textList := textList st; tags := tags st; tagsChanged := tagsChanged st;
  openedTags := openedTags st; item := item st; calls := calls st ++ [c];
  logs := logs st |}.

Definition log (e : logentry) st := {|
  voiceInstance := voiceInstance st; currentLanguage := currentLanguage st;
  chunks := chunks st; hasText := hasText st; charMode := charMode st;
  textList := textList st; tags := tags st; tagsChanged := tagsChanged st;
  openedTags := openedTags st; item := item st; calls := calls st;
  logs := logs st ++ [e] |}.

Section Multiplexer.
Variable D : Driver.

(** [speech.CHUNK_SEPARATOR.join(chunks).replace("  \x1b", "\x1b")] *)
Definition render (chunks : list pystr) : pystr :=
  replace (py "  " ++ [esc]) [esc] (join (CHUNK_SEPARATOR D) chunks).

(** [tags["pitch"] = {"absmiddle": voiceInstance._pitch}] when the voice
    is a SAPI5 one. *)
Definition seed_pitch (st : state) : state :=
  match engine D (voiceInstance st) with
  | SAPI5 =>
      set_tags (dict_set "pitch" [("absmiddle"%string, _pitch D (voiceInstance st))]
                  (tags st)) (tagsChanged st) st
  | _ => st
  end.

Definition closing_tag (tag : string) : pystr := py "</" ++ py tag ++ py ">".

Definition opening_tag (e : string * attrs) : list pystr :=
  [py "<" ++ py (fst e)]
  ++ map (fun av => py " " ++ py (fst av) ++ py "=" ++ [dq] ++ dec (snd av) ++ [dq])
         (snd e)
  ++ [py ">"].

(** The inner function [outputTags]. *)
Definition outputTags (st : state) : state :=
  if negb (tagsChanged st) then st
  else
    let st1 := set_textList (textList st ++ map closing_tag (rev (openedTags st))) st in
    let st2 := set_openedTags [] st1 in
    let st3 := set_textList (textList st2 ++ flat_map opening_tag (tags st2)) st2 in
    let st4 := set_openedTags (map fst (tags st3)) st3 in
    seed_pitch (set_tags (tags st4) false st4).

(** The common head of the three language-change branches: what is
    decided before anything is flushed. *)
Inductive lang_decision :=
| KeepVoice                        (* command.lang == currentLanguage *)
| UseDefault                       (* command.lang is None *)
| SameVoice (lang : string)        (* newInstance == voiceInstance *)
| NewVoice (lang : string) (newInstance : voice).

Definition resolve (lang : string) : voice :=
  match getVoiceInstanceForLanguage D lang with
  | Some newInstance => newInstance
  | None => defaultVoiceInstance D
  end.

Definition decide_lang (st : state) (lang : option string) : lang_decision :=
  if lang_eqb lang (currentLanguage st) then KeepVoice
  else match lang with
       | None => UseDefault
       | Some l =>
           if Nat.eqb (resolve l) (voiceInstance st) then SameVoice l
           else NewVoice l (resolve l)
       end.

(** [voiceInstance = defaultInstance; currentLanguage = defaultLanguage] *)
Definition use_default (st : state) : state :=
  set_language (language D) (set_voice (defaultVoiceInstance D) st).

Definition clamp (v : Z) : Z := Z.max 0 (Z.min v 100).

Definition token (name : string) (value : Z) : pystr :=
  [esc] ++ py "\" ++ py name ++ py "=" ++ dec value ++ py "\".
End Multiplexer.

(** ** The exponential curve of the VE rate and pitch tokens

    [int(round(2.0 ** ((boundedValue - 50.0) / factor) * 100))] is evaluated
    by Python in binary floating point.  It is taken here as the exact value
    [100 * 2^((boundedValue-50)/factor)] rounded to the nearest integer:
    [n] is that integer when
    [(2n-1)^factor * 2^50 <= 200^factor * 2^boundedValue < (2n+1)^factor * 2^50]
    (the inequalities [n - 1/2 <= 100 * 2^((b-50)/factor) < n + 1/2] raised to
    the power [factor]).  The exact value is rational only when the exponent
    is an integer, and is then an integer itself, so no tie is ever rounded;
    on 0..100 it stays at least 1/500 away from every half-integer
    ([exp_curve_margin]), far more than the error of the floating-point
    evaluation. *)

Definition below_next_half (boundedValue factor n : Z) : bool :=
  200 ^ factor * 2 ^ boundedValue <? (2 * n + 1) ^ factor * 2 ^ 50.

(** The least [n] in [lo..hi] with [below_next_half], by bisection. *)
Fixpoint first_below (boundedValue factor : Z) (fuel : nat) (lo hi : Z) : Z :=
  match fuel with
  | O => hi
  | S k =>
      if hi <=? lo then hi
      else
        let mid := (lo + hi) / 2 in
        if below_next_half boundedValue factor mid
        then first_below boundedValue factor k lo mid
        else first_below boundedValue factor k (mid + 1) hi
  end.

Definition exp_curve (boundedValue factor : Z) : Z :=
  first_below boundedValue factor 10 0 512.

Definition rate_factor (boundedValue : Z) : Z :=
  if 50 <=? boundedValue then 25 else 50.

Section Steps.
Variable D : Driver.

Inductive result :=
| Ok (st : state)
| Raise (e : exn) (st : state).

(** The last two statements of a language-change branch that adopts a new
    voice. *)
Definition adopt (newInstance : voice) (st : state) : state :=
  seed_pitch D (set_voice newInstance st).

(** [elif isinstance(item, SpeechCommand): ... else: ...] *)
Definition log_unsupported (it : instr) (st : state) : state :=
  if is_SpeechCommand it then log (DebugWarning it) st else log (Error it) st.

(** One iteration of the loop when [voiceInstance.engine == "VE"]. *)
Definition step_VE (st : state) (command : instr) : result :=
  match command with
  | Text s =>
      let command := strip s in
      match command with
      | [] => Ok st
      | _ :: _ =>
          let command :=
            if charMode st || (List.length command =? 1)%nat
            then lower D command else command in
          Ok (set_chunks (chunks st ++ [replace [esc] [] command]) true st)
      end
  | IndexCommand index =>
      Ok (set_chunks (chunks st ++ [token "mrk" index]) (hasText st) st)
  | BreakCommand time =>
      let st1 := emit (Speak (voiceInstance st) (render D (chunks st))) st in
      let st2 := set_chunks [] false st1 in
      Ok (emit (Breaks (voiceInstance st2) time) st2)
  | RateCommand p =>
      let boundedValue := clamp (newValue p) in
      let value := exp_curve boundedValue (rate_factor boundedValue) in
      Ok (set_chunks (chunks st ++ [token "rate" value]) (hasText st) st)
  | PitchCommand p =>
      let boundedValue := clamp (newValue p) in
      let value := exp_curve boundedValue 50 in
      Ok (set_chunks (chunks st ++ [token "pitch" value]) (hasText st) st)
  | VolumeCommand p =>
      let value := clamp (newValue p) in
      Ok (set_chunks (chunks st ++ [token "vol" value]) (hasText st) st)
  | CharacterModeCommand state =>
      let st1 := set_charMode state st in
      let s := if state then [esc] ++ py "\tn=spell\" else [esc] ++ py "\tn=normal\" in
      Ok (set_chunks (chunks st1 ++ [s]) (hasText st1) st1)
  | SplitCommand =>
      let st1 := emit (Speak (voiceInstance st) (render D (chunks st))) st in
      Ok (set_chunks [] false st1)
  | LangChangeCommand lang | WVLangChangeCommand lang =>
      match decide_lang D st lang with
      | KeepVoice => Ok st
      | UseDefault => Ok (use_default D st)
      | SameVoice l => Ok (set_language (Some l) st)
      | NewVoice l newInstance =>
          let st1 := set_language (Some l) st in
          let st2 :=
            if hasText st1
            then emit (Speak (voiceInstance st1) (render D (chunks st1))) st1
            else st1 in
          Ok (adopt newInstance (set_chunks [] false st2))
      end
  | PhonemeCommand _ _ | OtherSpeechCommand _ | UnknownObject _ =>
      (* the two last branches test [item], not [command] *)
      match item st with
      | None => Raise (UnboundLocalError "item") st
      | Some it => Ok (log_unsupported it st)
      end
  end.

(** *** Arithmetic on the prosody multipliers

    The SAPI5 branches multiply an int setting of the voice by
    [item.multiplier].  With an int multiplier that is int arithmetic; with
    a float Python converts the int to a float, computes in binary64 and
    [int(...)] truncates the result. *)

(** An integer, or the exception raised on the way to it. *)
Inductive outcome :=
| Value (z : Z)
| Fails (e : exn).

(** [float(z)] for an int: the nearest binary64, ties to even; [None]
    stands for OverflowError when [z] is beyond the range. *)
Definition float_of_int (z : Z) : option float :=
  match SpecFloat.binary_normalize FloatOps.prec FloatOps.emax z 0 false with
  | SpecFloat.S754_infinity _ => None
  | sf => Some (FloatOps.SF2Prim sf)
  end.

(** [int(f)] for a float: truncation towards zero; nan and the infinities
    raise. *)
Definition int_of_float (f : float) : outcome :=
  match FloatOps.Prim2SF f with
  | SpecFloat.S754_nan => Fails (ValueError "cannot convert float NaN to integer")
  | SpecFloat.S754_infinity _ =>
      Fails (OverflowError "cannot convert float infinity to integer")
  | SpecFloat.S754_zero _ => Value 0
  | SpecFloat.S754_finite s m e =>
      let a := if 0 <=? e then Zpos m * 2 ^ e else Zpos m / 2 ^ (- e) in
      Value (if s then - a else a)
  end.

(** [f // 2] for a float [f].  Python computes [fmod(f, 2.0)], subtracts
    it, divides by 2.0 and corrects by one for a negative remainder; with
    the divisor 2.0 every one of these steps is exact, so the result is the
    floor of the exact quotient.  A zero keeps its sign; nan and the
    infinities give nan. *)
Definition float_floordiv2 (f : float) : float :=
  match FloatOps.Prim2SF f with
  | SpecFloat.S754_finite s m e =>
      let n := if s then Zneg m else Zpos m in
      let q := if 1 <=? e then n * 2 ^ (e - 1) else n / 2 ^ (1 - e) in
      FloatOps.SF2Prim (SpecFloat.binary_normalize FloatOps.prec FloatOps.emax q 0 s)
  | SpecFloat.S754_zero _ => f
  | _ => PrimFloat.nan
  end.

(** [item.multiplier == 1] *)
Definition is_one (m : pynum) : bool :=
  match m with
  | PyInt k => k =? 1
  | PyFloat f => PrimFloat.eqb f PrimFloat.one
  end.

Definition int_too_large : exn := OverflowError "int too large to convert to float".

(** [int(base * item.multiplier)] for an int [base]. *)
Definition scaled (base : Z) (m : pynum) : outcome :=
  match m with
  | PyInt k => Value (base * k)
  | PyFloat f =>
      match float_of_int base with
      | Some b => int_of_float (PrimFloat.mul b f)
      | None => Fails int_too_large
      end
  end.

(** [int((pitch * item.multiplier) // 2 - 25)] for an int [pitch]. *)
Definition absmiddle (pitch : Z) (m : pynum) : outcome :=
  match m with
  | PyInt k => Value (pitch * k / 2 - 25)
  | PyFloat f =>
      match float_of_int pitch, float_of_int 25 with
      | Some p, Some c =>
          int_of_float (PrimFloat.sub (float_floordiv2 (PrimFloat.mul p f)) c)
      | _, _ => Fails int_too_large
      end
  end.

Definition stage (k : string) (v : attrs) (st : state) : state :=
  set_tags (dict_set k v (tags st)) true st.

Definition unstage (k : string) (st : state) : state :=
  set_tags (dict_del k (tags st)) true st.

(** [tags[k] = {attr: ...}; tagsChanged[0] = True] with the value of an
    int conversion; a conversion that raises leaves the tags as they were. *)
Definition stage_value (k attr : string) (v : outcome) (st : state) : result :=
  match v with
  | Value z => Ok (stage k [(attr, z)] st)
  | Fails e => Raise e st
  end.

(** One iteration of the loop when [voiceInstance.engine == "SAPI5"].
    The driver class has no [_convertPhoneme] (it is not defined in the
    module, and the base class of the host has none): the [PhonemeCommand]
    branch raises AttributeError when it looks the method up, which
    [except LookupError] does not catch. *)
Definition step_SAPI5 (st0 : state) (command : instr) : result :=
  let st := set_item command st0 in
  match command with
  | Text s =>
      let st1 := outputTags D st in
      Ok (set_textList (textList st1 ++ [replace (py "<") (py "&lt;") s]) st1)
  | IndexCommand index =>
      Ok (set_textList
            (textList st ++ [py "<Bookmark Mark=" ++ [dq] ++ dec index ++ [dq] ++ py " />"])
            st)
  | CharacterModeCommand state =>
      Ok (if state then stage "spell" [] st else unstage "spell" st)
  | BreakCommand time =>
      Ok (set_textList
            (textList st ++ [py "<silence msec=" ++ [dq] ++ dec time ++ [dq] ++ py " />"])
            st)
  | PitchCommand p =>
      stage_value "pitch" "absmiddle"
        (absmiddle (pitch D (voiceInstance st)) (multiplier p)) st
  | VolumeCommand p =>
      if is_one (multiplier p) then Ok (unstage "volume" st)
      else stage_value "volume" "level"
             (scaled (_volume D (voiceInstance st)) (multiplier p)) st
  | RateCommand p =>
      if is_one (multiplier p) then Ok (unstage "rate" st)
      else stage_value "rate" "absspeed"
             (scaled (_rate D (voiceInstance st)) (multiplier p)) st
  | PhonemeCommand ipa text => Raise (AttributeError "_convertPhoneme") st
  | LangChangeCommand lang | WVLangChangeCommand lang =>
      match decide_lang D st lang with
      | KeepVoice => Ok st
      | UseDefault => Ok (use_default D st)
      | SameVoice l => Ok (set_language (Some l) st)
      | NewVoice l newInstance =>
          let st1 := set_language (Some l) st in
          let st2 := outputTags D (set_tags [] true st1) in
          let st3 := emit (Speak (voiceInstance st2) (PyStr.concat (textList st2))) st2 in
          Ok (adopt newInstance (set_textList [] st3))
      end
  | SplitCommand | OtherSpeechCommand _ | UnknownObject _ =>
      Ok (log_unsupported command st)
  end.

(** One iteration of the loop when [voiceInstance.engine == "aisound"]. *)
Definition step_aisound (st0 : state) (command : instr) : result :=
  let st := set_item command st0 in
  match command with
  | Text s =>
      let text := if charMode st then spaced s else s in
      Ok (emit (Speak (voiceInstance st) text) st)
  | IndexCommand index => Ok (emit (Index (voiceInstance st) index) st)
  | CharacterModeCommand state => Ok (set_charMode state st)
  | LangChangeCommand lang | WVLangChangeCommand lang =>
      match decide_lang D st lang with
      | KeepVoice => Ok st
      | UseDefault => Ok (use_default D st)
      | SameVoice l => Ok (set_language (Some l) st)
      | NewVoice l newInstance =>
          let st1 := set_language (Some l) st in
          let st2 := emit (Speak (voiceInstance st1) (render D (chunks st1))) st1 in
          Ok (seed_pitch D (set_charMode false (set_voice newInstance st2)))
      end
  | _ => Ok (log_unsupported command st)
  end.

(** The body of [for command in speechSequence:]. *)
Definition step (st : state) (command : instr) : result :=
  match engine D (voiceInstance st) with
  | VE => step_VE st command
  | SAPI5 => step_SAPI5 st command
  | Aisound => step_aisound st command
  end.

Fixpoint run (st : state) (speechSequence : list instr) : result :=
  match speechSequence with
  | [] => Ok st
  | command :: rest =>
      match step st command with
      | Ok st' => run st' rest
      | Raise e st' => Raise e st'
      end
  end.

(** The statements after the loop. *)
Definition finish (st : state) : state :=
  match engine D (voiceInstance st) with
  | VE =>
      match chunks st with
      | [] => st
      | _ :: _ => emit (Speak (voiceInstance st) (render D (chunks st))) st
      end
  | SAPI5 =>
      let st1 := outputTags D (set_tags [] true st) in
      let st2 := emit (Speak (voiceInstance st1) (PyStr.concat (textList st1))) st1 in
      set_textList [] st2
  | Aisound => emit (Speak (voiceInstance st) (render D (chunks st))) st
  end.

(** The locals as initialised before the loop. *)
Definition initial : state := {|
  voiceInstance := defaultVoiceInstance D;
  currentLanguage := language D;
  chunks := []; hasText := false; charMode := false;
  textList := []; tags := []; tagsChanged := true; openedTags := [];
  item := None; calls := []; logs := [] |}.

(** The passes of [speak] before the stabilizer loop. *)
Definition preprocess (speechSequence : list instr) : list instr :=
  let speechSequence :=
    if DetectLanguageTiming_after D then
      let speechSequence :=
        if _cni D then strip_commas speechSequence else speechSequence in
      let speechSequence := patchedNumSpeechSequence D speechSequence in
      if uwv D && useUnicodeLanguageDetection D
      then add_detected_language_commands D speechSequence
      else speechSequence
    else speechSequence in
  let speechSequence := patchedSpaceSpeechSequence D speechSequence in
  normalize_sequence D speechSequence.

(** [speak(speechSequence)]: the final locals, or the exception that left
    the loop together with the locals at that point. *)
Definition speak (speechSequence : list instr) : result :=
  match run initial (stabilize (preprocess speechSequence)) with
  | Ok st => Ok (finish st)
  | Raise e st => Raise e st
  end.

Definition state_of (r : result) : state :=
  match r with Ok st | Raise _ st => st end.

Definition raised (r : result) : option exn :=
  match r with Ok _ => None | Raise e _ => Some e end.
End Steps.

(** ** A concrete driver

    Voice 0 is the default voice, of engine [e0]; the router knows "fr"
    (voice 1) and "de" (voice 2), both of engine [e1], and "en_US" (voice 0).
    The driver's language is "en"; the separator is the host's two spaces. *)

Module Demo.

Definition ascii_lower (s : pystr) : pystr :=
  map (fun c => if ((65 <=? c) && (c <=? 90))%N then (c + 32)%N else c) s.

Definition digit_words : list pystr :=
  [py "zero"; py "one"; py "two"; py "three"; py "four"; py "five";
   py "six"; py "seven"; py "eight"; py "nine"].

(** A symbol table with the English digit words. *)
Definition symbols_en (c : char) : option symbol :=
  if isdigit c
  then Some {| sym_language := Some "en"%string;
               sym_replacement := nth_error digit_words (N.to_nat (c - 48)) |}
  else None.

Definition driver (e0 e1 : Engine) : Driver := {|
  DetectLanguageTiming_after := true;
  useUnicodeLanguageDetection := false;
  numberDotReplacement := py ".";
  _cni := false;
  uwv := false;
  _nummod := ModeValue;
  _numlan := "en";
  _chinesespace := 0;
  _normalization := "OFF";
  language := Some "en"%string;
  speechSymbols := Some symbols_en;
  defaultVoiceInstance := 0%nat;
  getVoiceInstanceForLanguage := fun l =>
    if String.eqb l "fr" then Some 1%nat
    else if String.eqb l "de" then Some 2%nat
    else if String.eqb l "en_US" then Some 0%nat
    else None;
  engine := fun v => match v with O => e0 | _ => e1 end;
  pitch := fun _ => 50;
  _pitch := fun _ => 0;
  _rate := fun _ => 50;
  _volume := fun _ => 100;
  CHUNK_SEPARATOR := py "  ";
  lower := ascii_lower;
  normalize := fun _ s => s;
  add_detected_language_commands := fun l => l
|}.

End Demo.

(** * Properties *)

(** The conversions follow binary64: the product of 50 and the float 0.3 is
    15.0 there, and an infinite or undefined product does not convert. *)
Lemma scaled_in_binary64 :
  scaled 50 (PyFloat 0x1.3333333333333p-2) = Value 15
  /\ absmiddle 50 (PyFloat 1.5) = Value 12
  /\ absmiddle 50 (PyFloat (-0.5)) = Value (-38)
  /\ scaled 100 (PyFloat infinity)
     = Fails (OverflowError "cannot convert float infinity to integer")
  /\ absmiddle 50 (PyFloat infinity)
     = Fails (ValueError "cannot convert float NaN to integer").
Proof. repeat split; vm_compute; reflexivity. Qed.

Arguments dec : simpl never.
Arguments py : simpl never.
Arguments token : simpl never.
Arguments render : simpl never.
Arguments exp_curve : simpl never.
Arguments replace : simpl never.
Arguments closing_tag : simpl never.

(** ** Language codes *)

Lemma lang_eqb_eq a b : lang_eqb a b = true <-> a = b.
Proof.
  destruct a as [x|], b as [y|]; simpl; try (split; discriminate); try tauto.
  rewrite String.eqb_eq. split; [intros ->; reflexivity | congruence].
Qed.

Lemma lang_eqb_refl a : lang_eqb a a = true.
Proof. apply lang_eqb_eq; reflexivity. Qed.

(** ** Stabilizer *)

Section Stabilizer.

Lemma stabilize_loop_perm (l stables unstables : list instr) :
  Permutation (stables ++ unstables ++ l) (stabilize_loop l stables unstables).
Proof.
  revert stables unstables.
  induction l as [|c l IH]; intros stables unstables; simpl.
  - rewrite app_nil_r. reflexivity.
  - destruct (is_lang c).
    + etransitivity; [|apply IH]. simpl.
      rewrite <- app_assoc. apply Permutation_app_head. simpl.
      symmetry. apply Permutation_middle.
    + destruct (is_str c).
      * etransitivity; [|apply IH]. simpl.
        rewrite <- !app_assoc. reflexivity.
      * etransitivity; [|apply IH].
        rewrite <- !app_assoc. reflexivity.
Qed.

Lemma stabilize_permutation_loop l : Permutation l (stabilize l).
Proof. unfold stabilize. apply (stabilize_loop_perm l [] []). Qed.

Definition is_control (c : instr) : bool := negb (is_lang c) && negb (is_str c).

(** No language-change marker directly follows a control marker.
    [after_control] tells whether the element before [l] is one. *)
Fixpoint lang_never_after_control (after_control : bool) (l : list instr) : bool :=
  match l with
  | [] => true
  | c :: r =>
      if is_lang c then negb after_control && lang_never_after_control false r
      else if is_str c then lang_never_after_control false r
      else lang_never_after_control true r
  end.

(** The condition on the input of the stabilizer: no language-change
    marker that was put in front of pending control markers is followed,
    before the next text, by another language-change marker.
    [pending]: [unstables] is not empty; [tail_control]: [stables] ends
    with a control marker. *)
Fixpoint hoists_once_from (pending tail_control : bool) (l : list instr) : bool :=
  match l with
  | [] => true
  | c :: r =>
      if is_lang c then negb tail_control && hoists_once_from false pending r
      else if is_str c then hoists_once_from false false r
      else hoists_once_from true tail_control r
  end.

Definition hoists_once (l : list instr) : bool := hoists_once_from false false l.

Definition nonempty (l : list instr) : bool :=
  match l with [] => false | _ :: _ => true end.

(** Whether a list ends with a control marker; [b] answers for []. *)
Fixpoint ends_with_control (b : bool) (l : list instr) : bool :=
  match l with
  | [] => b
  | c :: r => ends_with_control (is_control c) r
  end.

Lemma stabilize_loop_prefix l : forall stables unstables,
  exists t, stabilize_loop l stables unstables = stables ++ t.
Proof.
  induction l as [|c l IH]; intros stables unstables; simpl.
  - eauto.
  - destruct (is_lang c); [|destruct (is_str c)].
    + destruct (IH (stables ++ c :: unstables) []) as [t ->].
      rewrite <- app_assoc. eauto.
    + destruct (IH (stables ++ unstables ++ [c]) []) as [t ->].
      rewrite <- app_assoc. eauto.
    + apply IH.
Qed.

Lemma control_not_lang c : is_control c = true -> is_lang c = false.
Proof. unfold is_control. destruct (is_lang c); simpl; congruence. Qed.

(** The sequences the loop leaves as they are. *)
Lemma stabilize_loop_fixed l : forall stables unstables,
  Forall (fun c => is_control c = true) unstables ->
  (stabilize_loop l stables unstables = stables ++ unstables ++ l
   <-> lang_never_after_control (nonempty unstables) l = true).
Proof.
  induction l as [|c l IH]; intros stables unstables Hun; simpl.
  - rewrite app_nil_r. tauto.
  - destruct (is_lang c) eqn:Hl; [|destruct (is_str c) eqn:Hs].
    + destruct unstables as [|u un]; simpl.
      * specialize (IH (stables ++ [c]) [] (Forall_nil _)). simpl in IH.
        rewrite <- IH, <- app_assoc. simpl. tauto.
      * split; [|discriminate].
        intros H.
        destruct (stabilize_loop_prefix l (stables ++ c :: u :: un) []) as [t Ht].
        rewrite Ht, <- app_assoc in H.
        apply app_inv_head in H. simpl in H.
        injection H as Hc _. subst u.
        inversion Hun as [|? ? Hc' _]; subst.
        apply control_not_lang in Hc'. congruence.
    + specialize (IH (stables ++ unstables ++ [c]) [] (Forall_nil _)).
      simpl in IH. rewrite <- IH, <- !app_assoc. simpl. tauto.
    + assert (Hc : is_control c = true) by (unfold is_control; rewrite Hl, Hs; reflexivity).
      assert (Hun' : Forall (fun c => is_control c = true) (unstables ++ [c])).
      { apply Forall_app; split; [assumption | constructor; [assumption | constructor]]. }
      specialize (IH stables (unstables ++ [c]) Hun').
      replace (nonempty (unstables ++ [c])) with true in IH
        by (destruct unstables; reflexivity).
      rewrite <- IH, <- !app_assoc. simpl. tauto.
Qed.

Lemma stabilize_fixed l :
  stabilize l = l <-> lang_never_after_control false l = true.
Proof.
  unfold stabilize.
  apply (stabilize_loop_fixed l [] []). constructor.
Qed.

Lemma lang_never_after_control_app a : forall b c,
  lang_never_after_control b (a ++ c)
  = lang_never_after_control b a
    && lang_never_after_control (ends_with_control b a) c.
Proof.
  induction a as [|x a IH]; intros b c; simpl.
  - reflexivity.
  - unfold is_control.
    destruct (is_lang x); [|destruct (is_str x)]; simpl;
      rewrite IH; rewrite ?andb_assoc; reflexivity.
Qed.

Lemma controls_ok un : forall b,
  Forall (fun c => is_control c = true) un ->
  lang_never_after_control b un = true
  /\ ends_with_control b un = (b || nonempty un).
Proof.
  induction un as [|u un IH]; intros b H; simpl.
  - rewrite orb_false_r. auto.
  - inversion H as [|? ? Hu Hr]; subst.
    pose proof (control_not_lang _ Hu) as Hl.
    assert (Hs : is_str u = false).
    { unfold is_control in Hu. rewrite Hl in Hu. simpl in Hu.
      destruct (is_str u); simpl in *; congruence. }
    rewrite Hl, Hs, Hu.
    destruct (IH true Hr) as [-> ->].
    rewrite orb_true_r. auto.
Qed.

(** The shape of the output, read off the input. *)
Lemma stabilize_loop_shape l : forall stables unstables,
  Forall (fun c => is_control c = true) unstables ->
  lang_never_after_control false (stabilize_loop l stables unstables)
  = lang_never_after_control false stables
    && hoists_once_from (nonempty unstables) (ends_with_control false stables) l.
Proof.
  induction l as [|c l IH]; intros stables unstables Hun; simpl.
  - rewrite lang_never_after_control_app.
    destruct (controls_ok unstables (ends_with_control false stables) Hun) as [-> _].
    reflexivity.
  - destruct (is_lang c) eqn:Hl; [|destruct (is_str c) eqn:Hs].
    + rewrite IH by constructor. simpl.
      rewrite lang_never_after_control_app. simpl. rewrite Hl.
      destruct (controls_ok unstables false Hun) as [-> _].
      assert (He : forall b, ends_with_control b (stables ++ c :: unstables)
                             = nonempty unstables).
      { intros b. revert b. induction stables as [|s st IHs]; intros b; simpl.
        - unfold is_control at 1. rewrite Hl. simpl.
          destruct (controls_ok unstables false Hun) as [_ ->]. reflexivity.
        - apply IHs. }
      rewrite He, andb_true_r, andb_assoc. reflexivity.
    + rewrite IH by constructor. simpl.
      rewrite !lang_never_after_control_app. simpl. rewrite Hl, Hs.
      destruct (controls_ok unstables (ends_with_control false stables) Hun) as [-> _].
      assert (He : forall b, ends_with_control b (stables ++ unstables ++ [c]) = false).
      { intros b. rewrite app_assoc. revert b.
        induction (stables ++ unstables) as [|s st IHs]; intros b; simpl.
        - unfold is_control. rewrite Hl, Hs. reflexivity.
        - apply IHs. }
      rewrite He, !andb_true_r. reflexivity.
    + assert (Hc : is_control c = true) by (unfold is_control; rewrite Hl, Hs; reflexivity).
      rewrite IH.
      * replace (nonempty (unstables ++ [c])) with true
          by (destruct unstables; reflexivity).
        reflexivity.
      * apply Forall_app; split; [assumption | constructor; [assumption | constructor]].
Qed.

Lemma stabilize_shape l :
  lang_never_after_control false (stabilize l) = hoists_once l.
Proof.
  unfold stabilize, hoists_once.
  rewrite stabilize_loop_shape by constructor. reflexivity.
Qed.

(** The condition of [stabilize_twice] is also necessary. *)
Lemma stabilize_twice_only_if l :
  stabilize (stabilize l) = stabilize l -> hoists_once l = true.
Proof.
  intros H. rewrite <- stabilize_shape. apply stabilize_fixed. exact H.
Qed.

End Stabilizer.

(** C10. The stabilizer outputs a permutation of its input: every
    instruction of the input occurs in the output as many times as in the
    input, and nothing is added. *)
Theorem stabilize_permutation (l : list instr) :
  Permutation l (stabilize l).
Proof.
  apply stabilize_permutation_loop.
Qed.

(** C8, as stated, fails: a second run of the stabilizer moves the second
    language change in front of the index marker the first run had put
    after the first language change. *)
Lemma stabilize_not_idempotent :
  let l := [IndexCommand 1; LangChangeCommand (Some "fr"%string);
            IndexCommand 2; LangChangeCommand (Some "de"%string)] in
  stabilize l = [LangChangeCommand (Some "fr"%string); IndexCommand 1;
                 LangChangeCommand (Some "de"%string); IndexCommand 2]
  /\ stabilize (stabilize l)
     = [LangChangeCommand (Some "fr"%string); LangChangeCommand (Some "de"%string);
        IndexCommand 1; IndexCommand 2]
  /\ stabilize (stabilize l) <> stabilize l.
Proof.
  cbv zeta. repeat split. vm_compute. discriminate.
Qed.

(** C8, amended. Applying the stabilizer to its own output yields that
    output unchanged for every input in which no language-change marker that
    was moved in front of pending control markers is followed, before the
    next text fragment, by another language-change marker. *)
Theorem stabilize_twice (l : list instr) :
  hoists_once l = true -> stabilize (stabilize l) = stabilize l.
Proof.
  intros H. apply stabilize_fixed. rewrite stabilize_shape. exact H.
Qed.

Lemma stabilize_twice_witness :
  let l := [IndexCommand 1; LangChangeCommand (Some "fr"%string);
            Text (py "bonjour"); PitchCommand {| newValue := 60; multiplier := PyInt 1 |};
            LangChangeCommand None; Text (py "!")] in
  hoists_once l = true /\ stabilize (stabilize l) = stabilize l.
Proof.
  cbv zeta. split; [reflexivity | apply stabilize_twice; reflexivity].
Defined.

(** ** Projections of the helper updates *)

Section Projections.
Variable D : Driver.

Lemma seed_pitch_calls s : calls (seed_pitch D s) = calls s.
Proof. unfold seed_pitch; destruct (engine D (voiceInstance s)); reflexivity. Qed.
Lemma seed_pitch_logs s : logs (seed_pitch D s) = logs s.
Proof. unfold seed_pitch; destruct (engine D (voiceInstance s)); reflexivity. Qed.
Lemma seed_pitch_voice s : voiceInstance (seed_pitch D s) = voiceInstance s.
Proof. unfold seed_pitch; destruct (engine D (voiceInstance s)); reflexivity. Qed.
Lemma seed_pitch_language s : currentLanguage (seed_pitch D s) = currentLanguage s.
Proof. unfold seed_pitch; destruct (engine D (voiceInstance s)); reflexivity. Qed.
Lemma seed_pitch_chunks s : chunks (seed_pitch D s) = chunks s.
Proof. unfold seed_pitch; destruct (engine D (voiceInstance s)); reflexivity. Qed.
Lemma seed_pitch_hasText s : hasText (seed_pitch D s) = hasText s.
Proof. unfold seed_pitch; destruct (engine D (voiceInstance s)); reflexivity. Qed.
Lemma seed_pitch_charMode s : charMode (seed_pitch D s) = charMode s.
Proof. unfold seed_pitch; destruct (engine D (voiceInstance s)); reflexivity. Qed.
Lemma seed_pitch_textList s : textList (seed_pitch D s) = textList s.
Proof. unfold seed_pitch; destruct (engine D (voiceInstance s)); reflexivity. Qed.

(** [outputTags] right after [tags.clear()]: the open tags are closed and
    nothing else changes in the text list. *)
Lemma outputTags_cleared_textList s :
  textList (outputTags D (set_tags [] true s))
  = textList s ++ map closing_tag (rev (openedTags s)).
Proof.
  unfold outputTags. simpl. rewrite seed_pitch_textList. simpl.
  apply app_nil_r.
Qed.
Lemma outputTags_calls s : calls (outputTags D s) = calls s.
Proof.
  unfold outputTags. destruct (tagsChanged s); simpl; [|reflexivity].
  rewrite seed_pitch_calls. reflexivity.
Qed.
Lemma outputTags_logs s : logs (outputTags D s) = logs s.
Proof.
  unfold outputTags. destruct (tagsChanged s); simpl; [|reflexivity].
  rewrite seed_pitch_logs. reflexivity.
Qed.
Lemma outputTags_voice s : voiceInstance (outputTags D s) = voiceInstance s.
Proof.
  unfold outputTags. destruct (tagsChanged s); simpl; [|reflexivity].
  rewrite seed_pitch_voice. reflexivity.
Qed.
Lemma outputTags_language s : currentLanguage (outputTags D s) = currentLanguage s.
Proof.
  unfold outputTags. destruct (tagsChanged s); simpl; [|reflexivity].
  rewrite seed_pitch_language. reflexivity.
Qed.
Lemma outputTags_chunks s : chunks (outputTags D s) = chunks s.
Proof.
  unfold outputTags. destruct (tagsChanged s); simpl; [|reflexivity].
  rewrite seed_pitch_chunks. reflexivity.
Qed.
Lemma outputTags_charMode s : charMode (outputTags D s) = charMode s.
Proof.
  unfold outputTags. destruct (tagsChanged s); simpl; [|reflexivity].
  rewrite seed_pitch_charMode. reflexivity.
Qed.
End Projections.

Create Rewrite HintDb proj.
#[local] Hint Rewrite seed_pitch_calls seed_pitch_logs seed_pitch_voice
  seed_pitch_language seed_pitch_chunks seed_pitch_hasText seed_pitch_charMode
  seed_pitch_textList outputTags_cleared_textList outputTags_calls
  outputTags_logs outputTags_voice outputTags_language outputTags_chunks
  outputTags_charMode : proj.

Ltac proj := unfold adopt; autorewrite with proj; simpl; autorewrite with proj; simpl.

(** ** Language changes in the multiplexer *)

Section LanguageChange.
Variable D : Driver.

(** The buffers of the loop: everything but the voice, the language,
    [item] and the calls and log entries made. *)
Definition same_buffers (st st' : state) : Prop :=
  chunks st' = chunks st /\ hasText st' = hasText st
  /\ charMode st' = charMode st /\ textList st' = textList st
  /\ tags st' = tags st /\ tagsChanged st' = tagsChanged st
  /\ openedTags st' = openedTags st.

(** The voice a marker stands for: the default voice for [None], else
    what the router returns, the default voice when it returns none. *)
Definition resolved_voice (lang : option string) : voice :=
  match lang with
  | None => defaultVoiceInstance D
  | Some l => resolve D l
  end.

Lemma lang_eqb_neq a b : a <> b -> lang_eqb a b = false.
Proof.
  intros H. destruct (lang_eqb a b) eqn:E; [|reflexivity].
  apply lang_eqb_eq in E. contradiction.
Qed.

Lemma decide_lang_item c st lang :
  decide_lang D (set_item c st) lang = decide_lang D st lang.
Proof. reflexivity. Qed.

(** A marker whose voice is the active one, or whose code is the current
    language, makes no call and leaves voice and buffers alone. *)
Lemma step_lang_quiet (st : state) (c : instr) (lang : option string) :
  lang_of c = Some lang ->
  lang = currentLanguage st \/ resolved_voice lang = voiceInstance st ->
  exists st',
    step D st c = Ok st'
    /\ calls st' = calls st /\ logs st' = logs st
    /\ voiceInstance st' = voiceInstance st
    /\ same_buffers st st'
    /\ currentLanguage st'
       = (if lang_eqb lang (currentLanguage st) then currentLanguage st
          else match lang with Some l => Some l | None => language D end).
Proof.
  intros Hc Hq.
  assert (Hd : decide_lang D st lang
               = (if lang_eqb lang (currentLanguage st) then KeepVoice
                  else match lang with
                       | None => UseDefault
                       | Some l => SameVoice l
                       end)
               /\ (lang_eqb lang (currentLanguage st) = false ->
                   resolved_voice lang = voiceInstance st)).
  { unfold decide_lang.
    destruct (lang_eqb lang (currentLanguage st)) eqn:E.
    - split; [reflexivity | discriminate].
    - destruct Hq as [Hq | Hq].
      + subst lang. rewrite lang_eqb_refl in E. discriminate.
      + split; [|auto]. destruct lang as [l|]; [|reflexivity].
        simpl in Hq. rewrite Hq, Nat.eqb_refl. reflexivity. }
  destruct Hd as [Hd Hv].
  unfold same_buffers.
  destruct c; simpl in Hc; try discriminate Hc; injection Hc as ->;
    unfold step; destruct (engine D (voiceInstance st));
    unfold step_VE, step_SAPI5, step_aisound;
    rewrite ?decide_lang_item, Hd;
    (destruct (lang_eqb lang (currentLanguage st));
     [ eexists; split; [reflexivity|]; simpl; repeat split; reflexivity
     | specialize (Hv eq_refl); destruct lang as [l|]; simpl in Hv;
       (eexists; split; [reflexivity|]); simpl; repeat split; auto ]).
Qed.

(** After a marker whose code is not the current language the active
    voice is the one the marker stands for. *)
Lemma step_lang_voice (st : state) (c : instr) (lang : option string) :
  lang_of c = Some lang ->
  lang <> currentLanguage st ->
  exists st', step D st c = Ok st' /\ voiceInstance st' = resolved_voice lang.
Proof.
  intros Hc Hl.
  assert (Hd : decide_lang D st lang
               = match lang with
                 | None => UseDefault
                 | Some l =>
                     if Nat.eqb (resolve D l) (voiceInstance st) then SameVoice l
                     else NewVoice l (resolve D l)
                 end).
  { unfold decide_lang. rewrite lang_eqb_neq by assumption. reflexivity. }
  destruct c; simpl in Hc; try discriminate Hc; injection Hc as ->;
    unfold step; destruct (engine D (voiceInstance st));
    unfold step_VE, step_SAPI5, step_aisound;
    rewrite ?decide_lang_item, Hd;
    (destruct lang as [l|];
     [ destruct (Nat.eqb (resolve D l) (voiceInstance st)) eqn:E;
       [ apply Nat.eqb_eq in E | ]
     | ]);
    eexists; (split; [reflexivity|]);
    unfold adopt, use_default; rewrite ?seed_pitch_voice; simpl; auto.
Qed.

(** Of two consecutive markers that stand for the same voice, the second
    makes no call when the first was not skipped for carrying the current
    language. *)
Lemma consecutive_lang_changes (st : state) (c1 c2 : instr)
    (lang1 lang2 : option string) :
  lang_of c1 = Some lang1 -> lang_of c2 = Some lang2 ->
  lang1 <> currentLanguage st ->
  resolved_voice lang1 = resolved_voice lang2 ->
  exists st1 st2,
    step D st c1 = Ok st1 /\ step D st1 c2 = Ok st2
    /\ calls st2 = calls st1 /\ voiceInstance st2 = voiceInstance st1.
Proof.
  intros H1 H2 Hl Hv.
  destruct (step_lang_voice st c1 lang1 H1 Hl) as (st1 & Hs1 & Hv1).
  assert (Hq : lang2 = currentLanguage st1 \/ resolved_voice lang2 = voiceInstance st1)
    by (right; congruence).
  destruct (step_lang_quiet st1 c2 lang2 H2 Hq) as (st2 & Hs2 & Hc2 & _ & Hv2 & _).
  exists st1, st2. auto.
Qed.

(** A language change makes at most one call, a [speak] call on the voice
    it leaves. *)
Lemma step_lang_calls (st : state) (c : instr) (lang : option string) :
  lang_of c = Some lang ->
  exists st',
    step D st c = Ok st'
    /\ (calls st' = calls st
        \/ exists payload, calls st' = calls st ++ [Speak (voiceInstance st) payload]).
Proof.
  intros Hc.
  destruct c; simpl in Hc; try discriminate Hc; injection Hc as ->;
    unfold step; destruct (engine D (voiceInstance st));
    unfold step_VE, step_SAPI5, step_aisound;
    rewrite ?decide_lang_item;
    destruct (decide_lang D st lang); eexists; (split; [reflexivity|]);
    unfold use_default; proj; try (left; reflexivity);
    try (destruct (hasText st); simpl; [|left; reflexivity]);
    right; eexists; reflexivity.
Qed.

(** Two consecutive markers that stand for the same voice make at most
    one call between them: the flush of the one voice switch. *)
Lemma consecutive_lang_changes_one_flush (st : state) (c1 c2 : instr)
    (lang1 lang2 : option string) :
  lang_of c1 = Some lang1 -> lang_of c2 = Some lang2 ->
  resolved_voice lang1 = resolved_voice lang2 ->
  exists st1 st2,
    step D st c1 = Ok st1 /\ step D st1 c2 = Ok st2
    /\ (calls st2 = calls st
        \/ exists payload, calls st2 = calls st ++ [Speak (voiceInstance st) payload]).
Proof.
  intros H1 H2 Hv.
  destruct (lang_eqb lang1 (currentLanguage st)) eqn:E.
  - apply lang_eqb_eq in E.
    destruct (step_lang_quiet st c1 lang1 H1 (or_introl E))
      as (st1 & Hs1 & Hc1 & _ & Hv1 & _).
    destruct (step_lang_calls st1 c2 lang2 H2) as (st2 & Hs2 & Hc2).
    exists st1, st2. rewrite Hc1, Hv1 in Hc2. auto.
  - assert (Hl : lang1 <> currentLanguage st).
    { intros ->. rewrite lang_eqb_refl in E. discriminate. }
    destruct (consecutive_lang_changes st c1 c2 lang1 lang2 H1 H2 Hl Hv)
      as (st1 & st2 & Hs1 & Hs2 & Hc2 & _).
    destruct (step_lang_calls st c1 lang1 H1) as (st1' & Hs1' & Hc1).
    rewrite Hs1 in Hs1'. injection Hs1' as <-.
    exists st1, st2. rewrite Hc2. auto.
Qed.
End LanguageChange.

(** C6. A language change whose code is the current language, or whose
    voice as resolved by the router is the active voice instance, makes no
    backend call and leaves the active voice and every buffer unchanged; the
    language ends up as the marker's code (in the same-voice case it is
    updated to it).  A further language-change marker that resolves to the
    same voice adds no backend call either. *)
Theorem lang_change_noop (D : Driver) (st : state) (c : instr)
    (lang : option string) :
  lang_of c = Some lang ->
  (lang = currentLanguage st
   \/ exists l, lang = Some l /\ resolve D l = voiceInstance st) ->
  exists st',
    step D st c = Ok st'
    /\ calls st' = calls st
    /\ voiceInstance st' = voiceInstance st
    /\ same_buffers st st'
    /\ currentLanguage st' = lang
    /\ forall c2 lang2,
         lang_of c2 = Some lang2 ->
         resolved_voice D lang2 = voiceInstance st' ->
         exists st'', step D st' c2 = Ok st''
                      /\ calls st'' = calls st
                      /\ voiceInstance st'' = voiceInstance st.
Proof.
  intros Hc Hq.
  assert (Hq' : lang = currentLanguage st \/ resolved_voice D lang = voiceInstance st).
  { destruct Hq as [Hq | (l & -> & Hq)]; [left | right]; assumption. }
  destruct (step_lang_quiet D st c lang Hc Hq')
    as (st' & Hs & Hcalls & _ & Hv & Hb & Hl).
  exists st'. repeat split; try assumption; try apply Hb.
  - rewrite Hl. destruct (lang_eqb lang (currentLanguage st)) eqn:E.
    + apply lang_eqb_eq in E. congruence.
    + destruct Hq as [Hq | (l & -> & _)]; [|reflexivity].
      subst lang. rewrite lang_eqb_refl in E. discriminate.
  - intros c2 lang2 Hc2 Hv2.
    destruct (step_lang_quiet D st' c2 lang2 Hc2 (or_intror Hv2))
      as (st'' & Hs2 & Hcalls2 & _ & Hvv & _).
    exists st''. repeat split; congruence.
Qed.

Lemma lang_change_noop_witness :
  let D := Demo.driver SAPI5 VE in
  let st := state_of (run D (initial D) [Text (py "hello"); IndexCommand 1]) in
  exists st',
    step D st (LangChangeCommand (Some "en_US"%string)) = Ok st'
    /\ calls st' = calls st
    /\ voiceInstance st' = voiceInstance st
    /\ same_buffers st st'
    /\ currentLanguage st' = Some "en_US"%string
    /\ forall c2 lang2,
         lang_of c2 = Some lang2 ->
         resolved_voice D lang2 = voiceInstance st' ->
         exists st'', step D st' c2 = Ok st''
                      /\ calls st'' = calls st
                      /\ voiceInstance st'' = voiceInstance st.
Proof.
  cbv zeta.
  apply (lang_change_noop (Demo.driver SAPI5 VE)).
  - reflexivity.
  - right. exists "en_US"%string. split; reflexivity.
Defined.

(** ** Voice switches *)

(** What is buffered for the active voice: the chunk list as it is joined
    for a [speak] call, or the markup with the open tags closed. *)
Definition buffered (D : Driver) (st : state) : pystr :=
  match engine D (voiceInstance st) with
  | VE | Aisound => render D (chunks st)
  | SAPI5 => PyStr.concat (textList st ++ map closing_tag (rev (openedTags st)))
  end.

(** C5. Under VE an index marker buffered with no text since the last
    flush is dropped when the voice changes: the flush is guarded by
    [hasText], the chunk list is emptied all the same.  Nothing is sent to
    the old voice, and the marker is in no call of the whole utterance. *)
Lemma switch_drops_index_marker :
  let D := Demo.driver VE VE in
  let st := state_of (run D (initial D) [IndexCommand 1]) in
  chunks st = [token "mrk" 1]
  /\ (exists st', step D st (LangChangeCommand (Some "fr"%string)) = Ok st'
        /\ voiceInstance st = 0%nat /\ voiceInstance st' = 1%nat
        /\ calls st' = [] /\ chunks st' = [])
  /\ calls (state_of (speak D [IndexCommand 1; Text (py " ");
                               LangChangeCommand (Some "fr"%string);
                               Text (py "bonjour")]))
     = [Speak 1%nat (py "bonjour")].
Proof.
  cbv zeta. split; [reflexivity|]. split; [|reflexivity].
  eexists. repeat split.
Qed.

(** A change to no language adopts the default voice without a flush: the
    buffers stay as they are, whatever the voice was. *)
Lemma revert_to_default_keeps_buffers (D : Driver) (st : state) (c : instr) :
  lang_of c = Some None ->
  currentLanguage st <> None ->
  exists st',
    step D st c = Ok st'
    /\ calls st' = calls st
    /\ voiceInstance st' = defaultVoiceInstance D
    /\ currentLanguage st' = language D
    /\ same_buffers st st'.
Proof.
  intros Hc Hl.
  assert (Hd : decide_lang D st None = UseDefault).
  { unfold decide_lang. rewrite lang_eqb_neq by congruence. reflexivity. }
  unfold same_buffers.
  destruct c; simpl in Hc; try discriminate Hc; injection Hc as ->;
    unfold step; destruct (engine D (voiceInstance st));
    unfold step_VE, step_SAPI5, step_aisound;
    rewrite ?decide_lang_item, Hd; eexists; (split; [reflexivity|]);
    simpl; repeat split; reflexivity.
Qed.

(** What a voice switch sends.  When a language change whose code is a
    language other than the current one resolves to a voice other than the
    active one, and, if the active voice is a VE one, text was buffered since
    the last flush, then what is buffered for the voice that is left (the
    chunk list, or the markup with its open tags closed) is sent to it in one
    call before the new voice is adopted.  A VE branch empties the chunk list
    and a SAPI5 branch the markup; the aisound branch leaves the chunk list
    as it is. *)
Lemma lang_change_switch (D : Driver) (st : state) (c : instr) (l : string) :
  lang_of c = Some (Some l) ->
  currentLanguage st <> Some l ->
  resolve D l <> voiceInstance st ->
  (engine D (voiceInstance st) = VE -> hasText st = true) ->
  exists st',
    step D st c = Ok st'
    /\ calls st' = calls st ++ [Speak (voiceInstance st) (buffered D st)]
    /\ voiceInstance st' = resolve D l
    /\ currentLanguage st' = Some l
    /\ match engine D (voiceInstance st) with
       | VE => chunks st' = [] /\ hasText st' = false
       | SAPI5 => textList st' = []
       | Aisound => chunks st' = chunks st
       end.
Proof.
  intros Hc Hl Hv Ht.
  assert (Hd : decide_lang D st (Some l) = NewVoice l (resolve D l)).
  { unfold decide_lang.
    rewrite lang_eqb_neq by congruence.
    destruct (Nat.eqb (resolve D l) (voiceInstance st)) eqn:E; [|reflexivity].
    apply Nat.eqb_eq in E. contradiction. }
  unfold buffered, step.
  destruct c; simpl in Hc; try discriminate Hc; injection Hc as ->;
    destruct (engine D (voiceInstance st)) eqn:He;
    unfold step_VE, step_SAPI5, step_aisound;
    rewrite ?decide_lang_item, Hd; eexists; (split; [reflexivity|]).
  all: proj; try rewrite (Ht eq_refl); simpl; repeat split; reflexivity.
Qed.

Lemma lang_change_switch_witness :
  let D := Demo.driver VE SAPI5 in
  let st := state_of (run D (initial D) [Text (py "a"); IndexCommand 1]) in
  exists st',
    step D st (WVLangChangeCommand (Some "fr"%string)) = Ok st'
    /\ calls st' = calls st ++ [Speak (voiceInstance st) (buffered D st)]
    /\ voiceInstance st' = resolve D "fr"
    /\ currentLanguage st' = Some "fr"%string
    /\ match engine D (voiceInstance st) with
       | VE => chunks st' = [] /\ hasText st' = false
       | SAPI5 => textList st' = []
       | Aisound => chunks st' = chunks st
       end.
Proof.
  cbv zeta.
  apply (lang_change_switch (Demo.driver VE SAPI5)).
  - reflexivity.
  - simpl. discriminate.
  - simpl. discriminate.
  - intros _. reflexivity.
Defined.

(** ** Breaks *)




(** ** Prosody tokens of the VE engine *)

(** [n] is [100 * 2^((boundedValue-50)/factor)] rounded to the nearest
    integer. *)
Definition nearest_to_curve (boundedValue factor n : Z) : Prop :=
  (2 * n - 1) ^ factor * 2 ^ 50 <= 200 ^ factor * 2 ^ boundedValue
  /\ 200 ^ factor * 2 ^ boundedValue < (2 * n + 1) ^ factor * 2 ^ 50.

Definition nearest_to_curveb (boundedValue factor n : Z) : bool :=
  ((2 * n - 1) ^ factor * 2 ^ 50 <=? 200 ^ factor * 2 ^ boundedValue)
  && (200 ^ factor * 2 ^ boundedValue <? (2 * n + 1) ^ factor * 2 ^ 50).

Lemma nearest_to_curveb_iff b f n :
  nearest_to_curveb b f n = true <-> nearest_to_curve b f n.
Proof.
  unfold nearest_to_curveb, nearest_to_curve.
  generalize ((2 * n - 1) ^ f * 2 ^ 50) (200 ^ f * 2 ^ b) ((2 * n + 1) ^ f * 2 ^ 50).
  intros x y z. rewrite andb_true_iff, Z.leb_le, Z.ltb_lt. tauto.
Qed.

Lemma exp_curve_table :
  forallb (fun b => nearest_to_curveb b 50 (exp_curve b 50)
                    && nearest_to_curveb b 25 (exp_curve b 25))
          (map Z.of_nat (seq 0 101)) = true.
Proof. vm_compute. reflexivity. Qed.

Lemma forallb_upto (p : Z -> bool) (n : nat) (b : Z) :
  forallb p (map Z.of_nat (seq 0 n)) = true ->
  0 <= b < Z.of_nat n -> p b = true.
Proof.
  intros H Hb. rewrite forallb_forall in H. apply H.
  apply in_map_iff. exists (Z.to_nat b). split; [lia|].
  apply in_seq. lia.
Qed.

(** On 0..100 the value computed is the nearest integer to the curve. *)
Lemma exp_curve_nearest (b factor : Z) :
  0 <= b <= 100 -> factor = 25 \/ factor = 50 ->
  nearest_to_curve b factor (exp_curve b factor).
Proof.
  intros Hb Hf.
  apply nearest_to_curveb_iff.
  assert (H : (nearest_to_curveb b 50 (exp_curve b 50)
               && nearest_to_curveb b 25 (exp_curve b 25)) = true).
  { apply (forallb_upto
             (fun b => nearest_to_curveb b 50 (exp_curve b 50)
                       && nearest_to_curveb b 25 (exp_curve b 25)) 101 b
             exp_curve_table).
    lia. }
  apply andb_true_iff in H.
  destruct Hf as [-> | ->]; tauto.
Qed.

(** The exact value lies within 0.498 of the integer computed. *)
Definition within_margin (boundedValue factor n : Z) : bool :=
  ((1000 * n - 498) ^ factor * 2 ^ 50 <=? 100000 ^ factor * 2 ^ boundedValue)
  && (100000 ^ factor * 2 ^ boundedValue <? (1000 * n + 498) ^ factor * 2 ^ 50).

Lemma exp_curve_margin (b factor : Z) :
  0 <= b <= 100 -> factor = 25 \/ factor = 50 ->
  within_margin b factor (exp_curve b factor) = true.
Proof.
  intros Hb Hf.
  assert (T : forallb (fun b => within_margin b 50 (exp_curve b 50)
                                && within_margin b 25 (exp_curve b 25))
                (map Z.of_nat (seq 0 101)) = true)
    by (vm_compute; reflexivity).
  apply forallb_upto with (b := b) in T; [|lia].
  apply andb_true_iff in T.
  destruct Hf as [-> | ->]; tauto.
Qed.

Lemma clamp_range (v : Z) : 0 <= clamp v <= 100.
Proof. unfold clamp. lia. Qed.

Definition appended (st : state) (chunk : pystr) : result :=
  Ok (set_chunks (chunks st ++ [chunk]) (hasText st) st).

(** C9, as stated, fails for volume: the value is only bounded, not put
    through the curve.  A volume of 100 is embedded as 100, where the curve
    gives 200 with factor 50 (and 400 with factor 25). *)
Lemma volume_token_not_on_curve :
  let D := Demo.driver VE VE in
  let p := {| newValue := 100; multiplier := PyInt 1 |} in
  step D (initial D) (VolumeCommand p) = appended (initial D) (token "vol" 100)
  /\ nearest_to_curve 100 50 200
  /\ ~ nearest_to_curve 100 50 100
  /\ ~ nearest_to_curve 100 25 100.
Proof.
  cbv zeta. split; [vm_compute; reflexivity|].
  rewrite <- !nearest_to_curveb_iff.
  assert (E1 : nearest_to_curveb 100 50 200 = true) by (vm_compute; reflexivity).
  assert (E2 : nearest_to_curveb 100 50 100 = false) by (vm_compute; reflexivity).
  assert (E3 : nearest_to_curveb 100 25 100 = false) by (vm_compute; reflexivity).
  rewrite E1, E2, E3. repeat split; discriminate.
Qed.

(** C9, amended. Under VE a rate command and a pitch command bound the
    incoming value to 0..100, put it through the curve
    [2^((bounded-50)/factor)] scaled by 100 and rounded to the nearest
    integer (factor 25 for a rate of at least 50 and 50 below; 50 for pitch)
    and append the result as an escape token.  A volume command appends the
    bounded value itself. *)
Theorem ve_prosody_tokens (D : Driver) (st : state) (p : prosody) :
  engine D (voiceInstance st) = VE ->
  let bounded := clamp (newValue p) in
  (exists value,
     step D st (RateCommand p) = appended st (token "rate" value)
     /\ nearest_to_curve bounded (if 50 <=? bounded then 25 else 50) value)
  /\ (exists value,
        step D st (PitchCommand p) = appended st (token "pitch" value)
        /\ nearest_to_curve bounded 50 value)
  /\ step D st (VolumeCommand p) = appended st (token "vol" bounded).
Proof.
  intros He bounded. unfold step. rewrite He. unfold step_VE, appended.
  pose proof (clamp_range (newValue p)) as Hb. fold bounded in Hb.
  repeat split.
  - eexists. split; [reflexivity|].
    fold bounded. unfold rate_factor.
    apply exp_curve_nearest; [assumption|].
    destruct (50 <=? bounded); auto.
  - eexists. split; [reflexivity|].
    fold bounded. apply exp_curve_nearest; auto.
Qed.

Lemma ve_prosody_tokens_witness :
  let D := Demo.driver VE VE in
  let p := {| newValue := 75; multiplier := PyFloat 1.5 |} in
  (exists value,
     step D (initial D) (RateCommand p) = appended (initial D) (token "rate" value)
     /\ nearest_to_curve 75 25 value)
  /\ (exists value,
        step D (initial D) (PitchCommand p) = appended (initial D) (token "pitch" value)
        /\ nearest_to_curve 75 50 value)
  /\ step D (initial D) (VolumeCommand p) = appended (initial D) (token "vol" 75).
Proof.
  cbv zeta.
  apply (ve_prosody_tokens (Demo.driver VE VE) (initial (Demo.driver VE VE))
           {| newValue := 75; multiplier := PyFloat 1.5 |}).
  reflexivity.
Defined.

(** ** Unsupported instructions *)

(** Under SAPI5 and aisound an instruction no branch handles is logged and
    skipped: the iteration makes no call and raises nothing. *)
Lemma unsupported_logged (D : Driver) (st : state) (tag : nat) :
  engine D (voiceInstance st) <> VE ->
  step D st (OtherSpeechCommand tag)
  = Ok (log (DebugWarning (OtherSpeechCommand tag))
          (set_item (OtherSpeechCommand tag) st))
  /\ step D st (UnknownObject tag)
     = Ok (log (Error (UnknownObject tag)) (set_item (UnknownObject tag) st)).
Proof.
  intros He. unfold step.
  destruct (engine D (voiceInstance st)); [contradiction | |]; split; reflexivity.
Qed.

(** C2. Under VE the two last branches of the chain read [item], which no
    VE branch assigns: with a VE default voice the first unsupported
    instruction raises, the loop is left, and the text buffered before it is
    never sent. *)
Theorem unsupported_raises_VE :
  let D := Demo.driver VE VE in
  let r := speak D [Text (py "hello"); PhonemeCommand (py "h") (Some (py "h"))] in
  raised r = Some (UnboundLocalError "item")
  /\ chunks (state_of r) = [py "hello"]
  /\ calls (state_of r) = []
  /\ logs (state_of r) = [].
Proof.
  cbv zeta. repeat split; vm_compute; reflexivity.
Qed.

(** ** Digit substitution in the numeric tagger *)

(** The policy as the claim words it: a segment of one character is always
    substituted, a longer one only in mode "number". *)
Definition translate_segment_claimed (mode : NumMode) (d : char -> option pystr)
    (n : pystr) : pystr :=
  if (List.length n =? 1)%nat then translate d n
  else match mode with
       | ModeNumber => translate d n
       | ModeValue => n
       end.

Fixpoint per_segment_claimed (mode : NumMode) (d : char -> option pystr)
    (nodot_str : list pystr) : pystr :=
  match nodot_str with
  | [] => []
  | [n] => translate_segment_claimed mode d n
  | n :: rest =>
      translate_segment_claimed mode d n ++ [dot] ++ per_segment_claimed mode d rest
  end.

(** The guard of the source holds for every segment: all are substituted,
    in both modes. *)
Lemma translate_segment_always (d : char -> option pystr) (n : pystr) :
  translate_segment d n = translate d n.
Proof.
  unfold translate_segment, segment_guard. rewrite orb_true_r. reflexivity.
Qed.

(** C4. In mode "value" the run "1.23.45" has three segments, so the
    per-segment branch is taken; its segments "23" and "45" are substituted,
    where the claim passes them through. *)
Theorem multi_char_segment_substituted :
  let D := Demo.driver VE VE in
  let d := translate_dict (Some Demo.symbols_en) "en" in
  resplit D Re.number_pattern (py "1.23.45") ModeValue "en" (Some Demo.symbols_en)
  = [Text []; WVLangChangeCommand StartNumber; Text (py "one.twothree.fourfive");
     WVLangChangeCommand EndNumber; Text []]
  /\ per_segment d [py "1"; py "23"; py "45"] = py "one.twothree.fourfive"
  /\ per_segment_claimed ModeValue d [py "1"; py "23"; py "45"] = py "one.23.45".
Proof.
  cbv zeta. repeat split; vm_compute; reflexivity.
Qed.

(** ** The restore language of a number *)

(** The second pass as the claim words it: the language in force is
    updated at every language change that is not a synthetic marker. *)
Fixpoint assign_number_langs_claimed (numberLanguage : string)
    (currentLang : option string) (result : list instr) : list instr :=
  match result with
  | [] => []
  | WVLangChangeCommand l :: rest =>
      if lang_eqb l StartNumber then
        WVLangChangeCommand (Some numberLanguage)
          :: assign_number_langs_claimed numberLanguage currentLang rest
      else if lang_eqb l EndNumber then
        WVLangChangeCommand currentLang
          :: assign_number_langs_claimed numberLanguage currentLang rest
      else
        WVLangChangeCommand l :: assign_number_langs_claimed numberLanguage l rest
  | LangChangeCommand l :: rest =>
      LangChangeCommand l :: assign_number_langs_claimed numberLanguage l rest
  | c :: rest => c :: assign_number_langs_claimed numberLanguage currentLang rest
  end.

Definition is_host_lang (c : instr) : bool :=
  match c with LangChangeCommand _ => true | _ => false end.

(** The two agree on the sequences without a [LangChangeCommand] of the
    host. *)
Lemma assign_number_langs_without_host (numberLanguage : string)
    (result : list instr) :
  forallb (fun c => negb (is_host_lang c)) result = true ->
  forall currentLang,
    assign_number_langs numberLanguage currentLang result
    = assign_number_langs_claimed numberLanguage currentLang result.
Proof.
  induction result as [|c result IH]; intros H currentLang; simpl.
  - reflexivity.
  - simpl in H. apply andb_true_iff in H. destruct H as [Hc Hr].
    destruct c; simpl in Hc; try discriminate Hc;
      try (rewrite IH by assumption; reflexivity).
    destruct (lang_eqb lang StartNumber); [|destruct (lang_eqb lang EndNumber)];
      rewrite IH by assumption; reflexivity.
Qed.

(** C7. The second pass looks at [WVLangChangeCommand] instances only.
    After a [LangChangeCommand] to "fr" the number is closed by a marker
    carrying the driver's language "en", not the language in force; had the
    change been a [WVLangChangeCommand], the marker would carry "fr". *)
Theorem end_number_ignores_host_lang_change :
  let D := Demo.driver VE VE in
  coercionNumberLangChange D
    [LangChangeCommand (Some "fr"%string); Text (py "12")] ModeValue "de" None
  = [LangChangeCommand (Some "fr"%string); Text [];
     WVLangChangeCommand (Some "de"%string); Text (py "12");
     WVLangChangeCommand (Some "en"%string); Text []]
  /\ coercionNumberLangChange D
       [WVLangChangeCommand (Some "fr"%string); Text (py "12")] ModeValue "de" None
     = [WVLangChangeCommand (Some "fr"%string); Text [];
        WVLangChangeCommand (Some "de"%string); Text (py "12");
        WVLangChangeCommand (Some "fr"%string); Text []]
  /\ assign_number_langs_claimed "de" (language D)
       [LangChangeCommand (Some "fr"%string); Text [];
        WVLangChangeCommand StartNumber; Text (py "12");
        WVLangChangeCommand EndNumber; Text []]
     = [LangChangeCommand (Some "fr"%string); Text [];
        WVLangChangeCommand (Some "de"%string); Text (py "12");
        WVLangChangeCommand (Some "fr"%string); Text []].
Proof.
  cbv zeta. repeat split; vm_compute; reflexivity.
Qed.

(** ** Text delivered to the voices *)

(** The text handed to the voices: the payloads of the [speak] calls, in
    order; [index] and [breaks] calls carry none. *)
Definition delivered (cs : list call) : pystr :=
  flat_map (fun c => match c with Speak _ payload => payload | _ => [] end) cs.

(** The text of a sequence: its strings, in order. *)
Definition text_of (c : instr) : pystr :=
  match c with Text s => s | _ => [] end.

Definition text_content (l : list instr) : pystr := flat_map text_of l.

Section TextOrder.






End TextOrder.

Section PlainCall.
Variable D : Driver.
Hypothesis all_aisound : forall v, engine D v = Aisound.



End PlainCall.

(** C1. With voices of two engines a string is sent twice and out of
    order.  The default voice is an aisound one and "fr" is routed to a VE
    voice.  The string "b" is buffered for the VE voice; the change to no
    language adopts the default voice and leaves it in the chunk list; the
    next switch, in the aisound branch, sends the chunk list to the aisound
    voice after "c" and does not empty it, so that "b" is sent once more, with
    "d", when the loop has ended.  The text is "abcd", the payloads are "a",
    "", "c", "b" and "b  d". *)
Theorem mixed_engines_repeat_text :
  let D := Demo.driver Aisound VE in
  let input := [Text (py "a"); LangChangeCommand (Some "fr"%string); Text (py "b");
                LangChangeCommand None; Text (py "c");
                LangChangeCommand (Some "fr"%string); Text (py "d")] in
  preprocess D input = input
  /\ text_content (preprocess D input) = py "abcd"
  /\ calls (state_of (speak D input))
     = [Speak 0%nat (py "a"); Speak 0%nat []; Speak 0%nat (py "c");
        Speak 0%nat (py "b"); Speak 1%nat (py "b  d")]
  /\ delivered (calls (state_of (speak D input))) = py "acbb  d"
  /\ delivered (calls (state_of (speak D input)))
     <> text_content (preprocess D input).
Proof.
  cbv zeta. repeat split; try (vm_compute; reflexivity).
  vm_compute. discriminate.
Qed.



(** * The remaining passes of the driver *)

(** ** What a match of a pattern is

    [matches r prev w rest]: the word [w], preceded by the character [prev]
    and followed by [rest], is in the language of [r].  The matcher only
    ever returns such words. *)

Definition last_char (prev : option char) (w : pystr) : option char :=
  fold_left (fun _ c => Some c) w prev.

Fixpoint matches (r : Re.regex) (prev : option char) (w rest : pystr) : Prop :=
  match r with
  | Re.Cls p => exists c, w = [c] /\ p c = true
  | Re.Plus p => w <> [] /\ Forall (fun c => p c = true) w
  | Re.Star p => Forall (fun c => p c = true) w
  | Re.Cat r1 r2 =>
      exists w1 w2, w = w1 ++ w2 /\ matches r1 prev w1 (w2 ++ rest)
                    /\ matches r2 (last_char prev w1) w2 rest
  | Re.Alt r1 r2 => matches r1 prev w rest \/ matches r2 prev w rest
  | Re.Behind p => w = [] /\ exists c, prev = Some c /\ p c = true
  | Re.Ahead p => w = [] /\ exists c t, rest = c :: t /\ p c = true
  end.

Section MatcherSound.

Lemma last_char_app prev w1 w2 :
  last_char prev (w1 ++ w2) = last_char (last_char prev w1) w2.
Proof. unfold last_char. apply fold_left_app. Qed.

Lemma star_sound p s : forall prev n k m,
  Re.star p prev s n k = Some m ->
  exists w rest,
    s = w ++ rest /\ Forall (fun c => p c = true) w
    /\ k (last_char prev w) rest (n + List.length w)%nat = Some m.
Proof.
  induction s as [|c s IH]; intros prev n k m H; simpl in H.
  - exists [], []. rewrite Nat.add_0_r. auto.
  - destruct (p c) eqn:Hp.
    + destruct (Re.star p (Some c) s (S n) k) as [x|] eqn:E.
      * injection H as ->.
        destruct (IH _ _ _ _ E) as (w & rest & -> & Hw & Hk).
        exists (c :: w), rest. repeat split; [constructor; assumption|].
        simpl. rewrite Nat.add_succ_r. exact Hk.
      * exists [], (c :: s). rewrite Nat.add_0_r. auto.
    + exists [], (c :: s). rewrite Nat.add_0_r. auto.
Qed.

Lemma run_sound r : forall prev s n k m,
  Re.run r prev s n k = Some m ->
  exists w rest,
    s = w ++ rest /\ matches r prev w rest
    /\ k (last_char prev w) rest (n + List.length w)%nat = Some m.
Proof.
  induction r as [p|p|p|r1 IH1 r2 IH2|r1 IH1 r2 IH2|p|p];
    intros prev s n k m H; simpl in H.
  - destruct s as [|c s]; [discriminate|].
    destruct (p c) eqn:Hp; [|discriminate].
    exists [c], s. simpl. rewrite Nat.add_1_r. eauto.
  - destruct s as [|c s]; [discriminate|].
    destruct (p c) eqn:Hp; [|discriminate].
    destruct (star_sound _ _ _ _ _ _ H) as (w & rest & -> & Hw & Hk).
    exists (c :: w), rest. simpl. rewrite Nat.add_succ_r.
    repeat split; [discriminate | constructor; assumption | exact Hk].
  - destruct (star_sound _ _ _ _ _ _ H) as (w & rest & -> & Hw & Hk).
    exists w, rest. auto.
  - destruct (IH1 _ _ _ _ _ H) as (w1 & rest1 & -> & H1 & Hk1).
    destruct (IH2 _ _ _ _ _ Hk1) as (w2 & rest & -> & H2 & Hk2).
    exists (w1 ++ w2), rest.
    rewrite <- app_assoc, last_char_app, length_app, Nat.add_assoc.
    repeat split; [|exact Hk2]. exists w1, w2. auto.
  - destruct (Re.run r1 prev s n k) as [x|] eqn:E.
    + injection H as ->.
      destruct (IH1 _ _ _ _ _ E) as (w & rest & -> & Hm & Hk).
      exists w, rest. simpl. auto.
    + destruct (IH2 _ _ _ _ _ H) as (w & rest & -> & Hm & Hk).
      exists w, rest. simpl. auto.
  - destruct prev as [c|]; [|discriminate].
    destruct (p c) eqn:Hp; [|discriminate].
    exists [], s. simpl. rewrite Nat.add_0_r. eauto 6.
  - destruct s as [|c s]; [discriminate|].
    destruct (p c) eqn:Hp; [|discriminate].
    exists [], (c :: s). simpl. rewrite Nat.add_0_r. eauto 8.
Qed.

(** A match found at the head of [s] is a prefix of [s] in the language of
    the pattern. *)
Lemma match_at_sound r prev s n :
  Re.match_at r prev s = Some n ->
  matches r prev (firstn n s) (skipn n s) /\ (n <= List.length s)%nat.
Proof.
  unfold Re.match_at. intros H.
  destruct (run_sound _ _ _ _ _ _ H) as (w & rest & -> & Hm & Hk).
  injection Hk as <-. simpl.
  rewrite firstn_app, Nat.sub_diag, firstn_all, skipn_app, Nat.sub_diag,
    skipn_all. simpl. rewrite app_nil_r, length_app. split; [assumption | lia].
Qed.

Definition regroup (g : pystr * pystr * list (pystr * pystr)) : pystr :=
  let '(cur, o, ps) := g in
  cur ++ o ++ flat_map (fun mo => fst mo ++ snd mo) ps.

(** The scan loses nothing, and each piece it reports as a match is one. *)
Lemma group_marks r (P : pystr -> Prop) :
  (forall prev s n, Re.match_at r prev s = Some (S n) -> P (firstn (S n) s)) ->
  forall s prev skip,
    (skip <= List.length s)%nat ->
    regroup (Re.group (Re.marks r prev s skip) s) = s
    /\ fst (fst (Re.group (Re.marks r prev s skip) s)) = firstn skip s
    /\ Forall (fun mo => P (fst mo)) (snd (Re.group (Re.marks r prev s skip) s)).
Proof.
  intros HP. induction s as [|c s IH]; intros prev skip Hskip.
  - assert (skip = 0)%nat by (simpl in Hskip; lia). subst. simpl. auto.
  - simpl in Hskip. destruct skip as [|k]; cbn [Re.marks].
    + destruct (Re.match_at r prev (c :: s)) as [[|n]|] eqn:E; cbn [Re.group].
      * specialize (IH (Some c) 0%nat (Nat.le_0_l _)).
        destruct (Re.group (Re.marks r (Some c) s 0) s) as [[cur o] ps].
        cbn [regroup fst snd firstn] in *. destruct IH as (Hr & Hc & Hf). subst cur.
        simpl in Hr. simpl. rewrite Hr. auto.
      * pose proof (HP _ _ _ E) as Hp.
        apply match_at_sound in E. destruct E as [_ Hn]. simpl in Hn.
        specialize (IH (Some c) n (le_S_n _ _ Hn)).
        destruct (Re.group (Re.marks r (Some c) s n) s) as [[cur o] ps].
        cbn [regroup fst snd] in *. destruct IH as (Hr & Hc & Hf). subst cur.
        cbn [firstn] in Hp. cbn [flat_map fst snd app].
        rewrite <- app_assoc, Hr. auto.
      * specialize (IH (Some c) 0%nat (Nat.le_0_l _)).
        destruct (Re.group (Re.marks r (Some c) s 0) s) as [[cur o] ps].
        cbn [regroup fst snd firstn] in *. destruct IH as (Hr & Hc & Hf). subst cur.
        simpl in Hr. simpl. rewrite Hr. auto.
    + cbn [Re.group].
      specialize (IH (Some c) k (le_S_n _ _ Hskip)).
      destruct (Re.group (Re.marks r (Some c) s k) s) as [[cur o] ps].
      cbn [regroup fst snd firstn] in *. destruct IH as (Hr & Hc & Hf). subst cur.
      cbn [app]. rewrite Hr. auto.
Qed.

Lemma pieces_spec r (P : pystr -> Prop) s :
  (forall prev s n, Re.match_at r prev s = Some (S n) -> P (firstn (S n) s)) ->
  fst (Re.pieces r s) ++ flat_map (fun mo => fst mo ++ snd mo) (snd (Re.pieces r s)) = s
  /\ Forall (fun mo => P (fst mo)) (snd (Re.pieces r s)).
Proof.
  intros HP.
  destruct (group_marks r P HP s None 0%nat (Nat.le_0_l _)) as (Hr & Hc & Hf).
  unfold Re.pieces.
  destruct (Re.group (Re.marks r None s 0) s) as [[cur o] ps].
  simpl in *. subst cur. simpl in Hr. auto.
Qed.

(** [pattern.split] and [pattern.findall] interleave to the string. *)
Lemma pieces_concat r s :
  fst (Re.pieces r s) ++ flat_map (fun mo => fst mo ++ snd mo) (snd (Re.pieces r s)) = s.
Proof. apply (pieces_spec r (fun _ => True)). auto. Qed.

(** Where the pattern matches nowhere, the string is one piece. *)
Lemma pieces_no_match r (Q : char -> Prop) s :
  (forall prev t, Forall Q t -> Re.match_at r prev t = None) ->
  Forall Q s -> Re.pieces r s = (s, []).
Proof.
  intros HQ Hs. unfold Re.pieces.
  assert (H : forall prev, Re.group (Re.marks r prev s 0) s = ([], s, [])).
  { induction Hs as [|c s Hc Hs IH]; intros prev; [reflexivity|].
    cbn [Re.marks].
    rewrite (HQ prev (c :: s)) by (constructor; assumption).
    cbn [Re.group]. rewrite IH. reflexivity. }
  rewrite H. reflexivity.
Qed.

End MatcherSound.

(** ** Numeric runs *)

(** A numeric run starts with a digit or a sign, consists of digits, signs,
    dots and colons, and ends with a digit. *)
Definition number_run (w : pystr) : Prop :=
  (exists c t, w = c :: t /\ Re.is_sign_or_digit c = true)
  /\ Forall (fun x => Re.is_sign_or_digit x || Re.is_digit_dot_colon x = true) w
  /\ exists d, last_char None w = Some d /\ isdigit d = true.

Lemma last_char_Forall (P : char -> Prop) w : forall prev,
  w <> [] -> Forall P w -> exists d, last_char prev w = Some d /\ P d.
Proof.
  induction w as [|c w IH]; intros prev Hne Hw; [contradiction|].
  inversion Hw as [|? ? Hc Hr]; subst.
  destruct w as [|c' w'].
  - exists c. auto.
  - apply (IH (Some c)); [discriminate | assumption].
Qed.

Lemma digit_is_both c :
  isdigit c = true ->
  Re.is_sign_or_digit c = true /\ Re.is_digit_dot_colon c = true.
Proof.
  intros H. unfold Re.is_sign_or_digit, Re.is_digit_dot_colon. rewrite H. auto.
Qed.

Lemma number_pattern_matches prev w rest :
  matches Re.number_pattern prev w rest -> number_run w.
Proof.
  simpl. intros [H | H].
  - destruct H as (w1 & w2 & -> & (Hne1 & H1) & w3 & w4 & -> & H3 & Hne4 & H4).
    repeat split.
    + destruct w1 as [|c t]; [contradiction|].
      inversion H1; subst. exists c, (t ++ w3 ++ w4). auto.
    + rewrite !Forall_app. repeat split.
      * eapply Forall_impl; [|exact H1]. simpl. intros a ->. reflexivity.
      * eapply Forall_impl; [|exact H3]. simpl. intros a ->. apply orb_true_r.
      * eapply Forall_impl; [|exact H4]. simpl. intros a Ha.
        apply digit_is_both in Ha. destruct Ha as [-> _]. reflexivity.
    + rewrite app_assoc, last_char_app.
      apply (last_char_Forall (fun d => isdigit d = true)); assumption.
  - destruct H as (c & -> & Hc).
    repeat split.
    + exists c, []. split; [reflexivity|]. apply digit_is_both; assumption.
    + constructor; [|constructor].
      apply digit_is_both in Hc. destruct Hc as [-> _]. reflexivity.
    + exists c. auto.
Qed.

Lemma number_pattern_match_at prev s n :
  Re.match_at Re.number_pattern prev s = Some n -> number_run (firstn n s).
Proof.
  intros H. apply match_at_sound in H. destruct H as [H _].
  eapply number_pattern_matches. exact H.
Qed.

Lemma number_run_has_digit w : number_run w -> exists d, In d w /\ isdigit d = true.
Proof.
  intros (_ & _ & d & Hl & Hd). exists d. split; [|assumption].
  assert (G : forall w prev, last_char prev w = Some d -> prev = Some d \/ In d w).
  { clear. induction w as [|c w IH]; intros prev H; simpl in *.
    - auto.
    - destruct (IH _ H) as [E|E]; [injection E as ->; auto | auto]. }
  destruct (G _ _ Hl) as [E|E]; [discriminate | assumption].
Qed.

Lemma number_pattern_needs_digit prev t :
  Forall (fun c => isdigit c = false) t ->
  Re.match_at Re.number_pattern prev t = None.
Proof.
  intros Ht. destruct (Re.match_at Re.number_pattern prev t) as [n|] eqn:E;
    [|reflexivity].
  apply number_pattern_match_at in E. apply number_run_has_digit in E.
  destruct E as (d & Hin & Hd).
  assert (Hin' : In d t).
  { rewrite <- (firstn_skipn n t). apply in_or_app. auto. }
  rewrite Forall_forall in Ht. rewrite (Ht _ Hin') in Hd. discriminate.
Qed.

(** X1. Every numeric run the tagger finds in a string starts with a digit
    or a sign, consists of digits, signs, dots and colons only, and ends
    with a digit. *)
Theorem numbers_found_are_runs (s : pystr) :
  Forall number_run (Re.findall Re.number_pattern s).
Proof.
  unfold Re.findall.
  destruct (pieces_spec Re.number_pattern number_run s) as [_ H].
  - intros prev t n. apply number_pattern_match_at.
  - apply Forall_map. exact H.
Qed.

(** ** The numeric tagger on whole strings *)

Section Tagger.
Variable D : Driver.

(** The output of [resplit], from the pieces of the scan. *)
Fixpoint tagged (mode : NumMode) (d : char -> option pystr) (other : pystr)
    (ps : list (pystr * pystr)) : list instr :=
  match ps with
  | [] => [Text other]
  | (number, next) :: ps' =>
      [Text other; WVLangChangeCommand StartNumber;
       Text (number_string mode d (numberDotReplacement D) number);
       WVLangChangeCommand EndNumber] ++ tagged mode d next ps'
  end.

Lemma resplit_tagged pattern s mode numberLanguage symbols :
  resplit D pattern s mode numberLanguage symbols
  = tagged mode (translate_dict symbols numberLanguage)
      (fst (Re.pieces pattern s)) (snd (Re.pieces pattern s)).
Proof.
  unfold resplit. destruct (Re.pieces pattern s) as [first ps]. simpl.
  revert first. induction ps as [|[number next] ps IH]; intros first; simpl.
  - reflexivity.
  - rewrite IH. reflexivity.
Qed.

Lemma tagged_text mode d ps : forall other,
  Forall (fun mo => number_string mode d (numberDotReplacement D) (fst mo) = fst mo) ps ->
  text_content (tagged mode d other ps)
  = other ++ flat_map (fun mo => fst mo ++ snd mo) ps.
Proof.
  induction ps as [|[number next] ps IH]; intros other H; simpl.
  - reflexivity.
  - inversion H as [|? ? Hn Hr]; subst. simpl in Hn.
    unfold text_content in *. simpl. rewrite Hn, IH by assumption.
    rewrite <- app_assoc. reflexivity.
Qed.

Definition at_most_two_segments (number : pystr) : bool :=
  (List.length (split_char dot number) <=? 2)%nat.

Lemma number_string_value d rep number :
  at_most_two_segments number = true ->
  number_string ModeValue d rep number = number.
Proof.
  unfold at_most_two_segments, number_string. intros H.
  apply Nat.leb_le in H.
  replace (2 <? List.length (split_char dot number))%nat with false
    by (symmetry; apply Nat.ltb_ge; exact H).
  reflexivity.
Qed.

Lemma resplit_value_text s numberLanguage symbols :
  forallb at_most_two_segments (Re.findall Re.number_pattern s) = true ->
  text_content (resplit D Re.number_pattern s ModeValue numberLanguage symbols) = s.
Proof.
  intros H. rewrite resplit_tagged, tagged_text.
  - apply pieces_concat.
  - rewrite forallb_forall in H. apply Forall_forall. intros mo Hin.
    apply number_string_value. apply H. unfold Re.findall.
    apply in_map. exact Hin.
Qed.

Lemma resplit_without_digit s mode numberLanguage symbols :
  Forall (fun c => isdigit c = false) s ->
  resplit D Re.number_pattern s mode numberLanguage symbols = [Text s].
Proof.
  intros H. rewrite resplit_tagged.
  rewrite (pieces_no_match Re.number_pattern (fun c => isdigit c = false) s);
    [reflexivity | | exact H].
  intros prev t. apply number_pattern_needs_digit.
Qed.

(** The two names the first pass writes into its markers. *)
Definition placeholder_name (l : option string) : bool :=
  lang_eqb l StartNumber || lang_eqb l EndNumber.

Definition is_placeholder (c : instr) : bool :=
  match c with
  | WVLangChangeCommand l => placeholder_name l
  | _ => false
  end.

Lemma assign_number_langs_clean numberLanguage result : forall currentLang,
  placeholder_name (Some numberLanguage) = false ->
  placeholder_name currentLang = false ->
  forallb (fun c => negb (is_placeholder c))
    (assign_number_langs numberLanguage currentLang result) = true.
Proof.
  intros currentLang Hn. revert currentLang.
  induction result as [|c result IH]; intros currentLang Hc;
    cbn [assign_number_langs]; [reflexivity|].
  destruct c; cbn [forallb is_placeholder negb andb]; try (apply IH; assumption).
  destruct (lang_eqb lang StartNumber) eqn:E1.
  - cbn [forallb is_placeholder]. rewrite Hn. apply IH. assumption.
  - destruct (lang_eqb lang EndNumber) eqn:E2.
    + cbn [forallb is_placeholder]. rewrite Hc. apply IH. assumption.
    + cbn [forallb is_placeholder]. unfold placeholder_name at 1.
      rewrite E1, E2. apply IH.
      unfold placeholder_name. rewrite E1, E2. reflexivity.
Qed.

Lemma assign_number_langs_id numberLanguage result : forall currentLang,
  forallb (fun c => negb (is_placeholder c)) result = true ->
  assign_number_langs numberLanguage currentLang result = result.
Proof.
  induction result as [|c result IH]; intros currentLang H; simpl; [reflexivity|].
  simpl in H. apply andb_true_iff in H. destruct H as [Hc Hr].
  destruct c; simpl in Hc; try (rewrite IH by assumption; reflexivity).
  apply negb_true_iff in Hc. unfold placeholder_name in Hc.
  apply orb_false_iff in Hc. destruct Hc as [-> ->].
  rewrite IH by assumption. reflexivity.
Qed.

Definition digit_free (c : instr) : bool :=
  match c with
  | Text s => forallb (fun x => negb (isdigit x)) s
  | _ => true
  end.
End Tagger.

Definition runs_at_most_two_segments (c : instr) : bool :=
  match c with
  | Text s => forallb at_most_two_segments (Re.findall Re.number_pattern s)
  | _ => true
  end.

Lemma assign_number_langs_text numberLanguage l : forall currentLang,
  text_content (assign_number_langs numberLanguage currentLang l) = text_content l.
Proof.
  unfold text_content.
  induction l as [|c l IH]; intros cur; simpl; [reflexivity|].
  destruct c; simpl; rewrite ?IH; try reflexivity.
  destruct (lang_eqb lang StartNumber); [|destruct (lang_eqb lang EndNumber)];
    simpl; rewrite IH; reflexivity.
Qed.

(** X2. In mode "value" a sequence in which every numeric run has at most
    two dot-separated segments keeps its text through the numeric tagger:
    the strings of the output, concatenated, are those of the input. *)
Theorem tagger_value_keeps_text (D : Driver) (l : list instr)
    (numberLanguage : string) (symbols : option (char -> option symbol)) :
  forallb runs_at_most_two_segments l = true ->
  text_content (coercionNumberLangChange D l ModeValue numberLanguage symbols)
  = text_content l.
Proof.
  intros H. unfold coercionNumberLangChange.
  rewrite assign_number_langs_text.
  induction l as [|c l IH]; [reflexivity|].
  simpl in H. apply andb_true_iff in H. destruct H as [Hc Hl].
  cbn [flat_map]. unfold text_content in *.
  rewrite flat_map_app, (IH Hl).
  destruct c; try reflexivity.
  cbn [flat_map text_of]. f_equal.
  apply (resplit_value_text D). exact Hc.
Qed.

Lemma tagger_value_keeps_text_witness :
  let l := [Text (py "Room 101 costs -3.50"); IndexCommand 1; Text (py " at 12:30")] in
  text_content
    (coercionNumberLangChange (Demo.driver VE VE) l ModeValue "de" (Some Demo.symbols_en))
  = text_content l.
Proof.
  cbv zeta. apply tagger_value_keeps_text. vm_compute. reflexivity.
Defined.

(** X3. A sequence whose strings contain no digit and that carries no
    placeholder marker passes the numeric tagger unchanged, in both modes. *)
Theorem tagger_without_digits (D : Driver) (l : list instr) (mode : NumMode)
    (numberLanguage : string) (symbols : option (char -> option symbol)) :
  forallb digit_free l = true ->
  forallb (fun c => negb (is_placeholder c)) l = true ->
  coercionNumberLangChange D l mode numberLanguage symbols = l.
Proof.
  intros Hd Hp. unfold coercionNumberLangChange.
  assert (E : flat_map (fun command =>
                match command with
                | Text s => resplit D Re.number_pattern s mode numberLanguage symbols
                | _ => [command]
                end) l = l).
  { clear Hp. induction l as [|c l IH]; simpl; [reflexivity|].
    simpl in Hd. apply andb_true_iff in Hd. destruct Hd as [Hc Hl].
    rewrite IH by assumption.
    destruct c; try reflexivity.
    simpl in Hc. rewrite resplit_without_digit; [reflexivity|].
    apply Forall_forall. intros x Hx. rewrite forallb_forall in Hc.
    apply negb_true_iff. apply Hc. exact Hx. }
  rewrite E. apply assign_number_langs_id. exact Hp.
Qed.

Lemma tagger_without_digits_witness :
  let l := [Text (py "bonjour, monde"); IndexCommand 1;
            WVLangChangeCommand (Some "fr"%string); Text (py "+-.:")] in
  coercionNumberLangChange (Demo.driver VE VE) l ModeNumber "de" (Some Demo.symbols_en) = l.
Proof.
  cbv zeta. apply tagger_without_digits; vm_compute; reflexivity.
Defined.

(** X4. When neither the number language nor the driver's language is one
    of the two placeholder names, no marker of the tagger's output still
    carries a placeholder: every one has been given a language. *)
Theorem tagger_leaves_no_placeholder (D : Driver) (l : list instr) (mode : NumMode)
    (numberLanguage : string) (symbols : option (char -> option symbol)) :
  placeholder_name (Some numberLanguage) = false ->
  placeholder_name (language D) = false ->
  forallb (fun c => negb (is_placeholder c))
    (coercionNumberLangChange D l mode numberLanguage symbols) = true.
Proof.
  intros Hn Hl. unfold coercionNumberLangChange.
  apply assign_number_langs_clean; assumption.
Qed.

Lemma tagger_leaves_no_placeholder_witness :
  forallb (fun c => negb (is_placeholder c))
    (coercionNumberLangChange (Demo.driver VE VE)
       [WVLangChangeCommand EndNumber; Text (py "1.2.3 and 45")] ModeNumber "de" None)
  = true.
Proof.
  apply tagger_leaves_no_placeholder; reflexivity.
Defined.

(** ** Replacing one character *)

Lemma replace_char (c : char) (new s : pystr) :
  replace [c] new s = flat_map (fun x => if N.eqb c x then new else [x]) s.
Proof.
  unfold replace. induction s as [|x s IH]; simpl; [reflexivity|].
  rewrite andb_true_r. destruct (N.eqb c x); simpl; rewrite IH; reflexivity.
Qed.

Lemma replace_char_absent (c : char) (new s : pystr) :
  ~ In c new -> ~ In c (replace [c] new s).
Proof.
  intros Hn. rewrite replace_char. intros H.
  apply in_flat_map in H. destruct H as (x & _ & Hx).
  destruct (N.eqb c x) eqn:E.
  - contradiction.
  - destruct Hx as [Hx | []]. subst x. rewrite N.eqb_refl in E. discriminate.
Qed.

(** X5. When the per-segment branch of the tagger is taken (more than two
    dot-separated segments, or mode "number") and the configured replacement
    contains no dot, the number string it produces contains no dot. *)
Theorem number_string_has_no_dot (mode : NumMode) (d : char -> option pystr)
    (dotReplacement number : pystr) :
  (2 < List.length (split_char dot number))%nat \/ mode = ModeNumber ->
  ~ In dot dotReplacement ->
  ~ In dot (number_string mode d dotReplacement number).
Proof.
  intros Hb Hr. unfold number_string.
  assert (E : ((2 <? List.length (split_char dot number))%nat
               || match mode with ModeNumber => true | ModeValue => false end) = true).
  { destruct Hb as [Hb | ->]; [|apply orb_true_r].
    apply Nat.ltb_lt in Hb. rewrite Hb. reflexivity. }
  rewrite E. apply replace_char_absent. exact Hr.
Qed.

Lemma number_string_has_no_dot_witness :
  ~ In dot (number_string ModeValue (translate_dict (Some Demo.symbols_en) "en")
              (py " point ") (py "1.23.45")).
Proof.
  apply number_string_has_no_dot.
  - left. vm_compute. lia.
  - vm_compute. intros H. repeat (destruct H as [H | H]; [discriminate|]). exact H.
Defined.

(** ** Comma stripping *)

(** A comma with a digit directly before it and directly after it. *)
Definition comma_between (prev : option char) (s : pystr) : bool :=
  match prev, s with
  | Some p, c :: d :: _ => isdigit p && Re.is_comma c && isdigit d
  | _, _ => false
  end.

(** The string without the commas that stand between two digits of it. *)
Fixpoint drop_commas (prev : option char) (s : pystr) : pystr :=
  match s with
  | [] => []
  | c :: s' =>
      if comma_between prev s then drop_commas (Some c) s'
      else c :: drop_commas (Some c) s'
  end.

Fixpoint has_comma_between (prev : option char) (s : pystr) : bool :=
  match s with
  | [] => false
  | c :: s' => comma_between prev s || has_comma_between (Some c) s'
  end.

Section Commas.

Lemma comma_match_at prev s :
  Re.match_at Re.comma_number_pattern prev s
  = if comma_between prev s then Some 1%nat else None.
Proof.
  unfold Re.match_at, Re.comma_number_pattern, comma_between.
  destruct prev as [p|]; [|reflexivity].
  destruct s as [|c [|d s]]; simpl;
    destruct (isdigit p); try reflexivity;
    destruct (Re.is_comma c); try reflexivity;
    destruct (isdigit d); reflexivity.
Qed.

Lemma comma_group s : forall prev,
  let g := Re.group (Re.marks Re.comma_number_pattern prev s 0) s in
  fst (fst g) = []
  /\ snd (fst g) ++ List.concat (map snd (snd g)) = drop_commas prev s.
Proof.
  induction s as [|c s IH]; intros prev; [simpl; auto|].
  cbn [Re.marks drop_commas]. rewrite comma_match_at.
  specialize (IH (Some c)). cbv zeta in IH.
  destruct (comma_between prev (c :: s)); cbn [Re.group];
    destruct (Re.group (Re.marks Re.comma_number_pattern (Some c) s 0) s)
      as [[cur o] ps];
    cbn [fst snd] in *; destruct IH as [-> IH]; cbn [map List.concat snd fst app];
    rewrite ?IH; auto.
Qed.

Lemma sub_empty_commas s :
  Re.sub_empty Re.comma_number_pattern s = drop_commas None s.
Proof.
  unfold Re.sub_empty, Re.split, Re.pieces, PyStr.concat.
  pose proof (comma_group s None) as H. cbv zeta in H.
  destruct (Re.group (Re.marks Re.comma_number_pattern None s 0) s)
    as [[cur o] ps].
  cbn [fst snd] in *. destruct H as [_ H]. exact H.
Qed.

(** After a character that is no digit the next one is kept. *)
Lemma comma_between_kept prev x c s :
  isdigit c = false ->
  comma_between prev (x :: drop_commas (Some c) s) = comma_between prev (x :: s).
Proof.
  intros H. destruct s as [|y s]; [reflexivity|].
  cbn [drop_commas].
  replace (comma_between (Some c) (y :: s)) with false
    by (unfold comma_between; rewrite H; destruct s; reflexivity).
  reflexivity.
Qed.

Lemma comma_not_digit c : Re.is_comma c = true -> isdigit c = false.
Proof.
  unfold Re.is_comma, isdigit. intros H. apply N.eqb_eq in H. subst. reflexivity.
Qed.

Lemma drop_commas_clean s : forall prev po,
  (match s with c :: _ => Re.is_comma c = false | [] => True end \/ po = prev) ->
  has_comma_between po (drop_commas prev s) = false.
Proof.
  induction s as [|c s IH]; intros prev po H; [reflexivity|].
  cbn [drop_commas].
  destruct (comma_between prev (c :: s)) eqn:E.
  - (* the comma goes; a digit follows and is kept *)
    apply IH. left.
    unfold comma_between in E. destruct prev as [p|]; [|discriminate].
    destruct s as [|d s]; [discriminate|].
    apply andb_true_iff in E. destruct E as [_ Hd].
    unfold Re.is_comma, isdigit in *.
    destruct (N.eqb_spec d 44); [subst; discriminate | reflexivity].
  - cbn [has_comma_between]. rewrite (IH (Some c) (Some c)) by auto.
    rewrite orb_false_r.
    destruct (Re.is_comma c) eqn:Hc.
    + destruct H as [H | ->]; [congruence|].
      rewrite <- E. apply comma_between_kept. apply comma_not_digit. exact Hc.
    + unfold comma_between. destruct po; [|reflexivity].
      destruct (drop_commas (Some c) s); [reflexivity|].
      rewrite Hc, andb_false_r. reflexivity.
Qed.

Lemma drop_commas_fixed s : forall prev,
  has_comma_between prev s = false -> drop_commas prev s = s.
Proof.
  induction s as [|c s IH]; intros prev H; [reflexivity|].
  cbn [has_comma_between] in H. apply orb_false_iff in H. destruct H as [H1 H2].
  cbn [drop_commas]. rewrite H1, IH by assumption. reflexivity.
Qed.

Lemma strip_commas_map l :
  strip_commas l
  = map (fun c => match c with Text s => Text (drop_commas None s) | _ => c end) l.
Proof.
  unfold strip_commas. apply map_ext. intros [s| | | | | | | | | | | |]; try reflexivity.
  rewrite sub_empty_commas. reflexivity.
Qed.

End Commas.

(** X6. Comma stripping removes from every string exactly the commas that
    have a digit directly before and directly after them in that string;
    every other character and every other instruction is kept, in order. *)
Theorem strip_commas_removes_separators (l : list instr) :
  strip_commas l
  = map (fun c => match c with Text s => Text (drop_commas None s) | _ => c end) l.
Proof.
  apply strip_commas_map.
Qed.

(** X7. After comma stripping no string has a comma directly between two
    digits, and stripping again changes nothing. *)
Theorem strip_commas_complete (l : list instr) :
  Forall (fun c => match c with
                   | Text s => has_comma_between None s = false
                   | _ => True
                   end) (strip_commas l)
  /\ strip_commas (strip_commas l) = strip_commas l.
Proof.
  rewrite !strip_commas_map. split.
  - apply Forall_map. apply Forall_forall. intros c _.
    destruct c; try exact I. apply drop_commas_clean. auto.
  - rewrite map_map. apply map_ext. intros c.
    destruct c; try reflexivity.
    rewrite (drop_commas_fixed (drop_commas None s)); [reflexivity|].
    apply drop_commas_clean. auto.
Qed.

(** ** Script spacer *)

Definition not_space (c : char) : bool := negb (isspace c).

(** The instructions of a sequence that are not strings, in order. *)
Definition commands (l : list instr) : list instr :=
  filter (fun c => negb (is_str c)) l.

(** [only_adds b l l']: the list [l'] is [l] with copies of the instruction
    [b] put in: every element of [l] is kept, in order, and whatever else
    [l'] holds is a [b]. *)
Inductive only_adds (b : instr) : list instr -> list instr -> Prop :=
| adds_nil : only_adds b [] []
| adds_keep c l l' : only_adds b l l' -> only_adds b (c :: l) (c :: l')
| adds_new l l' : only_adds b l l' -> only_adds b l (b :: l').

(** Texts and other instructions alternate, from a text to a text. *)
Fixpoint alternates (expect_text : bool) (l : list instr) : bool :=
  match l with
  | [] => negb expect_text
  | c :: r => Bool.eqb (is_str c) expect_text && alternates (negb expect_text) r
  end.

Section Spacer.

Lemma chinese_space_match_at prev s n :
  Re.match_at Re.chinese_space_pattern prev s = Some n ->
  Forall (fun c => isspace c = true) (firstn n s).
Proof.
  intros H. apply match_at_sound in H. destruct H as [H _].
  simpl in H.
  destruct H as (w1 & w2 & -> & (-> & _) & w3 & w4 & -> & (_ & H3) & -> & _).
  simpl. rewrite app_nil_r. exact H3.
Qed.

Lemma filter_space_only w :
  Forall (fun c => isspace c = true) w -> filter not_space w = [].
Proof.
  induction 1 as [|c w Hc _ IH]; simpl; [reflexivity|].
  unfold not_space at 1. rewrite Hc. exact IH.
Qed.

Lemma with_breaks_text time l :
  text_content (with_breaks time l) = List.concat l.
Proof.
  unfold text_content.
  induction l as [|x [|y l] IH]; simpl in *; [reflexivity| |].
  - reflexivity.
  - rewrite IH. reflexivity.
Qed.

Lemma split_spaces_text time s :
  filter not_space (text_content (split_spaces time (Text s))) = filter not_space s.
Proof.
  unfold split_spaces.
  destruct (List.length (Re.split Re.chinese_space_pattern s) =? 1)%nat.
  - unfold text_content. simpl. rewrite app_nil_r. reflexivity.
  - rewrite with_breaks_text. unfold Re.split.
    destruct (pieces_spec Re.chinese_space_pattern
                (fun w => Forall (fun c => isspace c = true) w) s) as [Hs Hf].
    { intros prev t n. apply chinese_space_match_at. }
    destruct (Re.pieces Re.chinese_space_pattern s) as [first ps].
    cbn [fst snd] in *. subst s. cbn [List.concat]. rewrite !filter_app. f_equal.
    induction Hf as [|[m o] ps Hm _ IH]; simpl; [reflexivity|].
    rewrite !filter_app, IH, (filter_space_only m Hm). reflexivity.
Qed.

Lemma join_strings_text l : forall j,
  text_content (join_strings j l) = j ++ text_content l.
Proof.
  unfold text_content.
  induction l as [|c l IH]; intros j; simpl; [reflexivity|].
  destruct c; simpl; rewrite ?IH; rewrite ?app_nil_r, <- ?app_assoc; reflexivity.
Qed.

Lemma join_strings_commands l : forall j,
  filter (fun c => negb (is_str c)) (join_strings j l)
  = filter (fun c => negb (is_str c)) l.
Proof.
  induction l as [|c l IH]; intros j; simpl; [reflexivity|].
  destruct c; simpl; rewrite ?IH; reflexivity.
Qed.

Lemma join_strings_alternates l : forall j,
  alternates true (join_strings j l) = true.
Proof.
  induction l as [|c l IH]; intros j; simpl; [reflexivity|].
  destruct c; simpl; apply IH.
Qed.

Lemma commands_app l1 l2 : commands (l1 ++ l2) = commands l1 ++ commands l2.
Proof. apply filter_app. Qed.

Lemma only_adds_refl b l : only_adds b l l.
Proof. induction l; constructor; assumption. Qed.

Lemma only_adds_app b l1 l1' l2 l2' :
  only_adds b l1 l1' -> only_adds b l2 l2' ->
  only_adds b (l1 ++ l2) (l1' ++ l2').
Proof.
  intros H1 H2. induction H1; simpl; [assumption | |]; constructor; assumption.
Qed.

Lemma with_breaks_commands time l :
  only_adds (BreakCommand time) [] (commands (with_breaks time l)).
Proof.
  induction l as [|x [|y l] IH]; [constructor | constructor |].
  change (with_breaks time (x :: y :: l))
    with (Text x :: BreakCommand time :: with_breaks time (y :: l)).
  unfold commands in *. cbn [filter is_str negb].
  apply adds_new. exact IH.
Qed.

Lemma with_breaks_alternates time l : forall rest,
  l <> [] ->
  alternates true (with_breaks time l ++ rest) = alternates false rest.
Proof.
  induction l as [|x [|y l] IH]; intros rest Hne; [contradiction| |].
  - reflexivity.
  - cbn [with_breaks app alternates is_str Bool.eqb negb andb].
    apply (IH rest). discriminate.
Qed.

Lemma split_alternates time l : forall b,
  alternates b l = true ->
  alternates b (flat_map (split_spaces time) l) = true.
Proof.
  induction l as [|c l IH]; intros b H; [exact H|].
  cbn [alternates] in H. apply andb_true_iff in H. destruct H as [Hc Hl].
  cbn [flat_map].
  destruct c; try (cbn [split_spaces app alternates]; rewrite Hc; apply IH; exact Hl).
  apply Bool.eqb_prop in Hc. simpl in Hc. subst b.
  cbn [split_spaces].
  destruct (List.length (Re.split Re.chinese_space_pattern s) =? 1)%nat.
  - cbn [app alternates is_str Bool.eqb andb]. apply IH. exact Hl.
  - rewrite with_breaks_alternates by (unfold Re.split; discriminate).
    apply IH. exact Hl.
Qed.

End Spacer.

(** X8. The script spacer changes the text only by removing whitespace:
    with the whitespace taken out, the strings of its output, concatenated,
    are those of its input. *)
Theorem spacer_removes_only_whitespace (D : Driver) (l : list instr) :
  filter not_space (text_content (patchedSpaceSpeechSequence D l))
  = filter not_space (text_content l).
Proof.
  unfold patchedSpaceSpeechSequence.
  destruct (negb (_chinesespace D =? 0)); [|reflexivity].
  transitivity (filter not_space (text_content (join_strings [] l)));
    [|rewrite join_strings_text; reflexivity].
  generalize (join_strings [] l). intros l'.
  induction l' as [|c l' IH]; [reflexivity|].
  cbn [flat_map]. unfold text_content in *. rewrite flat_map_app, !filter_app, IH.
  cbn [flat_map]. rewrite filter_app. f_equal.
  destruct c; try reflexivity.
  apply split_spaces_text.
Qed.

(** X9. The script spacer keeps every instruction that is not a string,
    breaks included, in its order; the only instructions it adds are breaks
    of five times the factor. *)
Theorem spacer_keeps_commands (D : Driver) (l : list instr) :
  only_adds (BreakCommand (_chinesespace D * 5))
    (commands l) (commands (patchedSpaceSpeechSequence D l)).
Proof.
  unfold patchedSpaceSpeechSequence.
  destruct (negb (_chinesespace D =? 0)); [|apply only_adds_refl].
  unfold commands at 1. rewrite <- (join_strings_commands l []).
  fold (commands (join_strings [] l)).
  generalize (join_strings [] l). intros l'.
  induction l' as [|c l' IH]; [constructor|].
  cbn [flat_map]. rewrite commands_app.
  change (c :: l') with ([c] ++ l'). rewrite (commands_app [c] l').
  apply only_adds_app; [|exact IH].
  destruct c; try apply only_adds_refl.
  cbn [split_spaces].
  destruct (List.length (Re.split Re.chinese_space_pattern s) =? 1)%nat;
    [apply only_adds_refl|].
  apply with_breaks_commands.
Qed.

(** X10. With a non-zero factor the output of the script spacer starts
    with a string, ends with a string, and strings and other instructions
    alternate in it: adjacent strings are merged and a string, possibly
    empty, stands before and after every other instruction. *)
Theorem spacer_alternates (D : Driver) (l : list instr) :
  _chinesespace D <> 0 ->
  alternates true (patchedSpaceSpeechSequence D l) = true.
Proof.
  intros H. unfold patchedSpaceSpeechSequence.
  apply Z.eqb_neq in H. rewrite H. simpl.
  apply split_alternates. apply join_strings_alternates.
Qed.

(** The driver [D] with another script wait factor. *)
Definition with_chinesespace (factor : Z) (D : Driver) : Driver := {|
  DetectLanguageTiming_after := DetectLanguageTiming_after D;
  useUnicodeLanguageDetection := useUnicodeLanguageDetection D;
  numberDotReplacement := numberDotReplacement D;
  _cni := _cni D;
  uwv := uwv D;
  _nummod := _nummod D;
  _numlan := _numlan D;
  _chinesespace := factor;
  _normalization := _normalization D;
  language := language D;
  speechSymbols := speechSymbols D;
  defaultVoiceInstance := defaultVoiceInstance D;
  getVoiceInstanceForLanguage := getVoiceInstanceForLanguage D;
  engine := engine D;
  pitch := pitch D;
  _pitch := _pitch D;
  _rate := _rate D;
  _volume := _volume D;
  CHUNK_SEPARATOR := CHUNK_SEPARATOR D;
  lower := lower D;
  normalize := normalize D;
  add_detected_language_commands := add_detected_language_commands D
|}.

Lemma spacer_alternates_witness :
  alternates true
    (patchedSpaceSpeechSequence (with_chinesespace 2 (Demo.driver VE VE))
       [IndexCommand 1; Text [20320; 32; 22909]%N; Text (py "!")]) = true.
Proof.
  apply spacer_alternates. simpl. discriminate.
Defined.

(** ** Splitting long strings

    [lengthsplit] and [patchedLengthSpeechSequence]. *)

(** [re.compile(r"[\s]")] *)
Definition whitespace_pattern : Re.regex := Re.Cls isspace.

(** The loop over [zip(others, spaces)] and the two statements after it:
    [other] is the piece to add next, [ps] the (space, piece after it) pairs
    still to come. *)
Fixpoint lengthsplit_loop (length : Z) (fragment other : pystr)
    (ps : list (pystr * pystr)) : list instr :=
  match ps with
  | [] => [Text (fragment ++ other)]
  | (space, next) :: ps' =>
      let fragment := fragment ++ other ++ space in
      if length <? Z.of_nat (List.length fragment)
      then Text fragment :: SplitCommand :: lengthsplit_loop length [] next ps'
      else lengthsplit_loop length fragment next ps'
  end.

(** [lengthsplit(string, length)]. *)
Definition lengthsplit (s : pystr) (length : Z) : list instr :=
  let '(first, ps) := Re.pieces whitespace_pattern s in
  lengthsplit_loop length [] first ps.

(** [patchedLengthSpeechSequence(speechSequence)]. *)
Definition patchedLengthSpeechSequence (speechSequence : list instr) : list instr :=
  flat_map (fun command =>
              match command with
              | Text s => lengthsplit s 100
              | _ => [command]
              end) speechSequence.

(** A list of fragments each followed by a split, then a last fragment;
    every fragment followed by a split is longer than [length] and ends with
    a whitespace character. *)
Fixpoint split_fragments (length : Z) (l : list instr) : bool :=
  match l with
  | [Text _] => true
  | Text f :: SplitCommand :: r =>
      (length <? Z.of_nat (List.length f))
      && match last_char None f with Some c => isspace c | None => false end
      && split_fragments length r
  | _ => false
  end.

Section LengthSplit.

Lemma whitespace_match_at prev s n :
  Re.match_at whitespace_pattern prev s = Some n ->
  exists c, firstn n s = [c] /\ isspace c = true.
Proof.
  intros H. apply match_at_sound in H. destruct H as [H _]. exact H.
Qed.

Lemma lengthsplit_loop_text length ps : forall fragment other,
  text_content (lengthsplit_loop length fragment other ps)
  = fragment ++ other ++ flat_map (fun mo => fst mo ++ snd mo) ps.
Proof.
  unfold text_content.
  induction ps as [|[space next] ps IH]; intros fragment other;
    cbn [lengthsplit_loop flat_map fst snd].
  - cbn. rewrite !app_nil_r. reflexivity.
  - destruct (length <? Z.of_nat (List.length (fragment ++ other ++ space))).
    + cbn [flat_map text_of]. rewrite IH. cbn [app].
      rewrite <- !app_assoc. reflexivity.
    + rewrite IH, <- !app_assoc. reflexivity.
Qed.

Lemma last_char_snoc prev w c : last_char prev (w ++ [c]) = Some c.
Proof. rewrite last_char_app. reflexivity. Qed.

Lemma lengthsplit_loop_fragments length ps : forall fragment other,
  Forall (fun mo => exists c, fst mo = [c] /\ isspace c = true) ps ->
  split_fragments length (lengthsplit_loop length fragment other ps) = true.
Proof.
  induction ps as [|[space next] ps IH]; intros fragment other H;
    cbn [lengthsplit_loop].
  - reflexivity.
  - inversion H as [|? ? (c & Hc & Hs) Hr]; subst. cbn [fst] in Hc. subst space.
    destruct (length <? Z.of_nat (List.length (fragment ++ other ++ [c]))) eqn:E.
    + cbn [split_fragments]. rewrite E.
      rewrite !app_assoc, last_char_snoc, Hs. cbn [andb].
      apply IH. exact Hr.
    + apply IH. exact Hr.
Qed.

Lemma lengthsplit_keeps_text_loop s length :
  flat_map text_of (lengthsplit s length) = s.
Proof.
  unfold lengthsplit.
  pose proof (pieces_concat whitespace_pattern s) as H.
  destruct (Re.pieces whitespace_pattern s) as [first ps]. cbn [fst snd] in H.
  pose proof (lengthsplit_loop_text length ps [] first) as T.
  unfold text_content in T. rewrite T. exact H.
Qed.

Lemma lengthsplit_only_adds_splits s length :
  only_adds SplitCommand [] (commands (lengthsplit s length)).
Proof.
  unfold lengthsplit. destruct (Re.pieces whitespace_pattern s) as [first ps].
  generalize (@nil char). revert first.
  induction ps as [|[space next] ps IHp]; intros first fragment;
    cbn [lengthsplit_loop]; [constructor|].
  destruct (length <? Z.of_nat (List.length (fragment ++ first ++ space)));
    [|apply IHp].
  unfold commands. cbn [filter is_str negb]. apply adds_new. apply IHp.
Qed.

End LengthSplit.

(** X11. [lengthsplit] loses no character: the strings of its result,
    concatenated, are the input string. *)
Theorem lengthsplit_keeps_text (s : pystr) (length : Z) :
  text_content (lengthsplit s length) = s.
Proof.
  apply lengthsplit_keeps_text_loop.
Qed.

(** X12. The result of [lengthsplit] is a list of fragments each followed
    by a split command, closed by a last fragment; every fragment that is
    followed by a split is longer than the given length and ends with a
    whitespace character. *)
Theorem lengthsplit_fragments (s : pystr) (length : Z) :
  split_fragments length (lengthsplit s length) = true.
Proof.
  unfold lengthsplit.
  destruct (pieces_spec whitespace_pattern
              (fun w => exists c, w = [c] /\ isspace c = true) s) as [_ H].
  { intros prev t n. apply whitespace_match_at. }
  destruct (Re.pieces whitespace_pattern s) as [first ps]. cbn [snd] in H.
  apply lengthsplit_loop_fragments. exact H.
Qed.

(** X13. [patchedLengthSpeechSequence] keeps the text of a sequence and
    every instruction of it that is not a string, split commands included,
    in its order; the only instructions it adds are split commands. *)
Theorem patchedLengthSpeechSequence_keeps (l : list instr) :
  text_content (patchedLengthSpeechSequence l) = text_content l
  /\ only_adds SplitCommand (commands l) (commands (patchedLengthSpeechSequence l)).
Proof.
  unfold patchedLengthSpeechSequence. split.
  - unfold text_content.
    induction l as [|c l IH]; [reflexivity|].
    cbn [flat_map]. rewrite flat_map_app, IH.
    destruct c; try reflexivity.
    cbn [text_of]. f_equal. apply lengthsplit_keeps_text_loop.
  - induction l as [|c l IH]; [constructor|].
    cbn [flat_map]. rewrite commands_app.
    change (c :: l) with ([c] ++ l). rewrite (commands_app [c] l).
    apply only_adds_app; [|exact IH].
    destruct c; try apply only_adds_refl.
    apply lengthsplit_only_adds_splits.
Qed.

(** ** More on the stabilizer *)

Section StabilizerOrder.

Lemma stabilize_loop_stables l : forall stables unstables,
  stabilize_loop l stables unstables = stables ++ stabilize_loop l [] unstables.
Proof.
  induction l as [|c l IH]; intros stables unstables; simpl; [reflexivity|].
  destruct (is_lang c); [|destruct (is_str c)].
  - rewrite IH, (IH (c :: unstables)), <- app_assoc. reflexivity.
  - rewrite IH, (IH (unstables ++ [c])), <- app_assoc. reflexivity.
  - apply IH.
Qed.

Lemma stabilize_loop_pending cs : forall l unstables,
  Forall (fun c => is_control c = true) cs ->
  stabilize_loop (cs ++ l) [] unstables = stabilize_loop l [] (unstables ++ cs).
Proof.
  induction cs as [|c cs IH]; intros l unstables H; simpl.
  - rewrite app_nil_r. reflexivity.
  - inversion H as [|? ? Hc Hr]; subst.
    unfold is_control in Hc. apply andb_true_iff in Hc. destruct Hc as [Hl Hs].
    apply negb_true_iff in Hl, Hs. rewrite Hl, Hs.
    rewrite IH by assumption. rewrite <- app_assoc. reflexivity.
Qed.

Lemma stabilize_loop_filter (keep : instr -> bool) l : forall stables unstables,
  (forall c, is_lang c = true -> keep c = false) ->
  filter keep (stabilize_loop l stables unstables)
  = filter keep stables ++ filter keep unstables ++ filter keep l.
Proof.
  intros stables unstables Hk. revert stables unstables.
  induction l as [|c l IH]; intros stables unstables; simpl.
  - rewrite filter_app, app_nil_r. reflexivity.
  - destruct (is_lang c) eqn:Hl; [|destruct (is_str c)].
    + rewrite IH, filter_app. simpl. rewrite (Hk c Hl), <- app_assoc. reflexivity.
    + rewrite IH, !filter_app. simpl.
      destruct (keep c); rewrite <- !app_assoc; reflexivity.
    + rewrite IH, filter_app. simpl.
      destruct (keep c); rewrite <- !app_assoc; reflexivity.
Qed.

Lemma stabilize_loop_langs l : forall stables unstables,
  Forall (fun c => is_lang c = false) unstables ->
  filter is_lang (stabilize_loop l stables unstables)
  = filter is_lang stables ++ filter is_lang l.
Proof.
  assert (F : forall un, Forall (fun c => is_lang c = false) un ->
                         filter is_lang un = []).
  { induction 1 as [|x un Hx _ IHu]; simpl; [reflexivity|]. rewrite Hx. exact IHu. }
  induction l as [|c l IH]; intros stables unstables Hun; simpl.
  - rewrite filter_app, (F _ Hun). reflexivity.
  - destruct (is_lang c) eqn:Hl; [|destruct (is_str c) eqn:Hs].
    + rewrite IH by constructor. rewrite filter_app. simpl.
      rewrite Hl, (F _ Hun), <- app_assoc. reflexivity.
    + rewrite IH by constructor. rewrite !filter_app. simpl.
      rewrite Hl, (F _ Hun), !app_nil_r. reflexivity.
    + apply IH. apply Forall_app. split; [assumption|].
      constructor; [assumption | constructor].
Qed.

End StabilizerOrder.

(** X14. The stabilizer keeps the order of the language changes among
    themselves and the order of all other instructions among themselves: it
    only moves language changes relative to the others. *)
Theorem stabilize_keeps_orders (l : list instr) :
  filter is_lang (stabilize l) = filter is_lang l
  /\ filter (fun c => negb (is_lang c)) (stabilize l)
     = filter (fun c => negb (is_lang c)) l.
Proof.
  unfold stabilize. split.
  - rewrite stabilize_loop_langs by constructor. reflexivity.
  - rewrite stabilize_loop_filter; [reflexivity|].
    intros c ->. reflexivity.
Qed.

(** X15. A language change is moved in front of the run of control markers
    that directly precedes it, and what follows is stabilized on its own. *)
Theorem stabilize_hoists (cs rest : list instr) (c : instr) :
  Forall (fun x => is_control x = true) cs ->
  is_lang c = true ->
  stabilize (cs ++ c :: rest) = c :: cs ++ stabilize rest.
Proof.
  intros H Hc. unfold stabilize. rewrite stabilize_loop_pending by assumption.
  simpl. rewrite Hc. rewrite stabilize_loop_stables. reflexivity.
Qed.

Lemma stabilize_hoists_witness :
  let cs := [IndexCommand 1; CharacterModeCommand true] in
  let rest := [Text (py "bonjour"); IndexCommand 2] in
  stabilize (cs ++ LangChangeCommand None :: rest)
  = LangChangeCommand None :: cs ++ stabilize rest.
Proof.
  cbv zeta. apply stabilize_hoists; [repeat constructor | reflexivity].
Defined.

(** X16. The stabilizer leaves a sequence unchanged exactly when none of
    its language changes directly follows an instruction that is neither a
    string nor a language change. *)
Theorem stabilize_unchanged_iff (l : list instr) :
  stabilize l = l <-> lang_never_after_control false l = true.
Proof.
  apply stabilize_fixed.
Qed.

(** ** The trace of calls *)

Definition call_voice (k : call) : voice :=
  match k with Speak v _ | Breaks v _ | Index v _ => v end.

(** The voices the driver can hold: the default voice and those the
    router returns. *)
Definition known_voice (D : Driver) (v : voice) : Prop :=
  v = defaultVoiceInstance D \/ exists l, getVoiceInstanceForLanguage D l = Some v.

(** The instructions some branch of every engine's chain handles or logs
    without reading [item] unset: all but those the VE chain leaves to its
    two last branches. *)
Definition handled_by_VE (c : instr) : bool :=
  match c with
  | PhonemeCommand _ _ | OtherSpeechCommand _ | UnknownObject _ => false
  | _ => true
  end.

(** What the SAPI5 chain raises on an instruction while the voice [v] is
    the active one: the [PhonemeCommand] branch looks up a method the driver
    does not have, and a prosody branch raises when its multiplier does not
    convert to an int. *)
Definition failure (v : outcome) : option exn :=
  match v with Value _ => None | Fails e => Some e end.

Definition SAPI5_raises (D : Driver) (v : voice) (c : instr) : option exn :=
  match c with
  | PhonemeCommand _ _ => Some (AttributeError "_convertPhoneme")
  | PitchCommand p => failure (absmiddle (pitch D v) (multiplier p))
  | VolumeCommand p =>
      if is_one (multiplier p) then None
      else failure (scaled (_volume D v) (multiplier p))
  | RateCommand p =>
      if is_one (multiplier p) then None
      else failure (scaled (_rate D v) (multiplier p))
  | _ => None
  end.

Section Trace.
Variable D : Driver.

Lemma resolve_known l : known_voice D (resolve D l).
Proof.
  unfold resolve, known_voice.
  destruct (getVoiceInstanceForLanguage D l) eqn:E; eauto.
Qed.

Lemma decide_lang_new st lang l v :
  decide_lang D st lang = NewVoice l v -> v = resolve D l.
Proof.
  unfold decide_lang.
  destruct (lang_eqb lang (currentLanguage st)); [discriminate|].
  destruct lang as [l'|]; [|discriminate].
  destruct (Nat.eqb (resolve D l') (voiceInstance st)); [discriminate|].
  intros H. injection H as <- <-. reflexivity.
Qed.

Ltac trace_done :=
  cbn [state_of]; proj; rewrite <- ?app_assoc; cbn [app];
  first
    [ exists []; rewrite app_nil_r; split; [reflexivity|];
      split; [constructor | first [left; reflexivity | right; solve [auto]]]
    | eexists; split; [reflexivity|];
      split; [repeat constructor
             | first [left; reflexivity | right; solve [auto]]] ].

(** One iteration only adds calls, all on the voice that was active, and
    leaves the voice or adopts the default voice or one the router gave. *)
Lemma step_trace (st : state) (c : instr) :
  exists suffix,
    calls (state_of (step D st c)) = calls st ++ suffix
    /\ Forall (fun k => call_voice k = voiceInstance st) suffix
    /\ (voiceInstance (state_of (step D st c)) = voiceInstance st
        \/ known_voice D (voiceInstance (state_of (step D st c)))).
Proof.
  pose proof (resolve_known) as Hr.
  assert (Hdef : known_voice D (defaultVoiceInstance D)) by (left; reflexivity).
  unfold step. destruct (engine D (voiceInstance st)) eqn:He;
    destruct c;
    unfold step_VE, step_SAPI5, step_aisound, log_unsupported, stage_value,
      stage, unstage;
    rewrite ?decide_lang_item;
    cbn [hasText set_language set_item];
    repeat match goal with
      | |- context [match strip ?s with _ => _ end] => destruct (strip s)
      | |- context [match decide_lang D ?s ?l with _ => _ end] =>
          let E := fresh "Ed" in
          destruct (decide_lang D s l) eqn:E;
          [ | | | apply decide_lang_new in E; subst ]
      | |- context [match item ?s with _ => _ end] => destruct (item s)
      | |- context [match ?t with Value _ => _ | Fails _ => _ end] => destruct t
      | |- context [if ?b then _ else _] => destruct b
      end;
    unfold use_default; trace_done.
Qed.

Lemma finish_trace (st : state) :
  exists suffix,
    calls (finish D st) = calls st ++ suffix
    /\ Forall (fun k => call_voice k = voiceInstance st) suffix
    /\ voiceInstance (finish D st) = voiceInstance st.
Proof.
  unfold finish. destruct (engine D (voiceInstance st)).
  - destruct (chunks st).
    + exists []. rewrite app_nil_r. repeat split. constructor.
    + eexists. repeat split. repeat constructor.
  - eexists. proj. repeat split. repeat constructor.
  - eexists. repeat split. repeat constructor.
Qed.

Lemma run_app (l1 l2 : list instr) : forall st,
  run D st (l1 ++ l2)
  = match run D st l1 with
    | Ok st1 => run D st1 l2
    | Raise e st1 => Raise e st1
    end.
Proof.
  induction l1 as [|c l1 IH]; intros st; simpl; [reflexivity|].
  destruct (step D st c); [apply IH | reflexivity].
Qed.

Lemma run_trace (l : list instr) : forall st,
  known_voice D (voiceInstance st) ->
  exists suffix,
    calls (state_of (run D st l)) = calls st ++ suffix
    /\ Forall (fun k => known_voice D (call_voice k)) suffix
    /\ known_voice D (voiceInstance (state_of (run D st l))).
Proof.
  induction l as [|c l IH]; intros st Hk; simpl.
  - exists []. rewrite app_nil_r. repeat split; [constructor | assumption].
  - destruct (step_trace st c) as (s1 & Hc1 & Hf1 & Hv1).
    assert (Hs1 : Forall (fun k => known_voice D (call_voice k)) s1).
    { eapply Forall_impl; [|exact Hf1]. simpl. intros k ->. exact Hk. }
    assert (Hk1 : known_voice D (voiceInstance (state_of (step D st c)))).
    { destruct Hv1 as [-> | H]; assumption. }
    destruct (step D st c) as [st1 | e st1]; simpl in *.
    + destruct (IH st1 Hk1) as (s2 & Hc2 & Hf2 & Hv2).
      exists (s1 ++ s2). rewrite Hc2, Hc1, <- app_assoc.
      repeat split; [apply Forall_app; auto | assumption].
    + exists s1. auto.
Qed.

(** The iterations that raise: under VE an instruction without a branch
    while [item] is unbound, under SAPI5 what [SAPI5_raises] tells. *)
Lemma step_raise_inv (st st' : state) (c : instr) (e : exn) :
  step D st c = Raise e st' ->
  (engine D (voiceInstance st) = VE /\ handled_by_VE c = false
   /\ item st = None /\ e = UnboundLocalError "item" /\ st' = st)
  \/ (engine D (voiceInstance st) = SAPI5
      /\ SAPI5_raises D (voiceInstance st) c = Some e).
Proof.
  unfold step. destruct (engine D (voiceInstance st)) eqn:He;
    destruct c;
    unfold step_VE, step_SAPI5, step_aisound, log_unsupported, stage_value,
      stage, unstage, SAPI5_raises, failure;
    rewrite ?decide_lang_item; cbn [voiceInstance set_item];
    repeat match goal with
      | |- context [match strip ?s with _ => _ end] => destruct (strip s)
      | |- context [match decide_lang D ?s ?l with _ => _ end] =>
          destruct (decide_lang D s l)
      | |- context [match item ?s with _ => _ end] => destruct (item s) eqn:?
      | |- context [match ?t with Value _ => _ | Fails _ => _ end] => destruct t
      | |- context [if ?b then _ else _] => destruct b
      end;
    intros H; try discriminate H; injection H as <- <-; auto 6.
Qed.

(** Under SAPI5 an iteration raises exactly what [SAPI5_raises] tells. *)
Lemma step_SAPI5_raised (st : state) (c : instr) :
  engine D (voiceInstance st) = SAPI5 ->
  raised (step D st c) = SAPI5_raises D (voiceInstance st) c.
Proof.
  intros He. unfold step. rewrite He.
  destruct c; unfold step_SAPI5, stage_value, SAPI5_raises, failure;
    rewrite ?decide_lang_item; cbn [voiceInstance set_item];
    repeat match goal with
      | |- context [match decide_lang D ?s ?l with _ => _ end] =>
          destruct (decide_lang D s l)
      | |- context [match ?t with Value _ => _ | Fails _ => _ end] => destruct t
      | |- context [if ?b then _ else _] => destruct b
      end;
    reflexivity.
Qed.

(** Under VE no iteration assigns [item]. *)
Lemma step_VE_item (st st' : state) (c : instr) :
  engine D (voiceInstance st) = VE ->
  step D st c = Ok st' -> item st' = item st.
Proof.
  intros He. unfold step. rewrite He.
  destruct c; unfold step_VE, log_unsupported;
    repeat match goal with
      | |- context [match strip ?s with _ => _ end] => destruct (strip s)
      | |- context [match decide_lang D ?s ?l with _ => _ end] =>
          destruct (decide_lang D s l)
      | |- context [match item ?s with _ => _ end] => destruct (item s) eqn:?
      | |- context [if ?b then _ else _] => destruct b
      end;
    intros H; try discriminate H; injection H as <-;
    unfold adopt, use_default, seed_pitch;
    repeat match goal with
      | |- context [match engine D ?v with _ => _ end] => destruct (engine D v)
      end;
    simpl; auto.
Qed.

Lemma step_VE_handled (st : state) (c : instr) :
  engine D (voiceInstance st) = VE -> handled_by_VE c = true ->
  exists st', step D st c = Ok st'.
Proof.
  intros He Hc. destruct (step D st c) as [st'|e st'] eqn:E; [eauto|].
  apply step_raise_inv in E. destruct E as [(_ & E & _) | (E & _)]; congruence.
Qed.

Lemma step_VE_unhandled (st : state) (c : instr) :
  engine D (voiceInstance st) = VE -> item st = None ->
  handled_by_VE c = false ->
  step D st c = Raise (UnboundLocalError "item") st.
Proof.
  intros He Hi Hc. unfold step. rewrite He.
  destruct c; try discriminate Hc; unfold step_VE; rewrite Hi; reflexivity.
Qed.

Lemma forallb_perm (f : instr -> bool) (l l' : list instr) :
  Permutation l l' -> forallb f l = forallb f l'.
Proof.
  induction 1; simpl; try congruence.
  - rewrite !andb_assoc, (andb_comm (f y)). reflexivity.
Qed.


Lemma run_VE_raises (l : list instr) : forall st,
  (forall v, engine D v = VE) -> item st = None ->
  raised (run D st l)
  = if forallb handled_by_VE l then None else Some (UnboundLocalError "item").
Proof.
  induction l as [|c l IH]; intros st Ha Hi; simpl; [reflexivity|].
  destruct (handled_by_VE c) eqn:Hc; simpl.
  - destruct (step_VE_handled st c (Ha _) Hc) as (st1 & E). rewrite E.
    apply IH; [assumption|].
    rewrite (step_VE_item _ _ _ (Ha _) E). exact Hi.
  - rewrite (step_VE_unhandled st c (Ha _) Hi Hc). reflexivity.
Qed.
End Trace.

(** X18. Every call of a [speak] invocation is made on the default voice
    or on a voice the router returned for some language. *)
Theorem calls_on_known_voices (D : Driver) (input : list instr) :
  Forall (fun k => known_voice D (call_voice k)) (calls (state_of (speak D input))).
Proof.
  unfold speak.
  assert (Hk : known_voice D (voiceInstance (initial D))) by (left; reflexivity).
  destruct (run_trace D (stabilize (preprocess D input)) (initial D) Hk)
    as (s1 & Hc & Hf & Hv).
  destruct (run D (initial D) (stabilize (preprocess D input))) as [st|e st];
    simpl in *.
  - destruct (finish_trace D st) as (s2 & Hc2 & Hf2 & _).
    rewrite Hc2, Hc. simpl. apply Forall_app. split; [assumption|].
    eapply Forall_impl; [|exact Hf2]. simpl. intros k ->. exact Hv.
  - rewrite Hc. exact Hf.
Qed.



(** X20. When every voice is of the VE engine, [speak] raises
    [UnboundLocalError] for [item] exactly when the sequence, after the
    passes before the stabilizer, holds an instruction the VE chain has no
    branch for. *)
Theorem speak_VE_raises_iff (D : Driver) (input : list instr) :
  (forall v, engine D v = VE) ->
  raised (speak D input)
  = if forallb handled_by_VE (preprocess D input) then None
    else Some (UnboundLocalError "item").
Proof.
  intros Ha. unfold speak.
  rewrite (forallb_perm _ _ _ (stabilize_permutation_loop (preprocess D input))).
  rewrite <- (run_VE_raises D (stabilize (preprocess D input)) (initial D) Ha eq_refl).
  destruct (run D (initial D) (stabilize (preprocess D input))); reflexivity.
Qed.

Lemma speak_VE_raises_iff_witness :
  let D := Demo.driver VE VE in
  let input := [Text (py "a"); IndexCommand 1; OtherSpeechCommand 7; Text (py "b")] in
  raised (speak D input)
  = if forallb handled_by_VE (preprocess D input) then None
    else Some (UnboundLocalError "item").
Proof.
  cbv zeta. apply speak_VE_raises_iff. intros [|v]; reflexivity.
Defined.

(** ** Index marks under the plain-call engine *)



Section IndexMarks.
Variable D : Driver.
Hypothesis all_aisound : forall v, engine D v = Aisound.




End IndexMarks.



(** ** What a string can put into the buffers *)

Definition lt_sign : char := 60%N.

(** X22. Under VE a string adds no call and at most one chunk, and the
    chunk it adds holds no escape character: a string cannot smuggle a
    parameter directive into the payload. *)
Theorem VE_text_chunk_has_no_escape (D : Driver) (st : state) (s : pystr) :
  engine D (voiceInstance st) = VE ->
  exists st',
    step D st (Text s) = Ok st'
    /\ calls st' = calls st
    /\ (chunks st' = chunks st
        \/ exists chunk, chunks st' = chunks st ++ [chunk] /\ ~ In esc chunk).
Proof.
  intros He. unfold step. rewrite He. unfold step_VE.
  destruct (strip s) as [|c t].
  - eexists. repeat split. left. reflexivity.
  - eexists. repeat split. right. eexists. split; [reflexivity|].
    apply replace_char_absent. intros [].
Qed.

Lemma VE_text_chunk_has_no_escape_witness :
  let D := Demo.driver VE VE in
  exists st',
    step D (initial D) (Text (esc :: py "\vol=100\ loud ")) = Ok st'
    /\ calls st' = calls (initial D)
    /\ (chunks st' = chunks (initial D)
        \/ exists chunk, chunks st' = chunks (initial D) ++ [chunk] /\ ~ In esc chunk).
Proof.
  cbv zeta. apply VE_text_chunk_has_no_escape. reflexivity.
Defined.

(** X23. Under SAPI5 a string adds no call, and the fragment it appends to
    the markup buffer, the last one, holds no "<": a string cannot open or
    close an element. *)
Theorem SAPI5_text_fragment_has_no_lt (D : Driver) (st : state) (s : pystr) :
  engine D (voiceInstance st) = SAPI5 ->
  exists st' before fragment,
    step D st (Text s) = Ok st'
    /\ calls st' = calls st
    /\ textList st' = before ++ [fragment]
    /\ ~ In lt_sign fragment.
Proof.
  intros He. unfold step. rewrite He. unfold step_SAPI5.
  eexists. eexists. eexists. split; [reflexivity|].
  cbn [calls textList set_textList]. rewrite outputTags_calls. cbn [calls set_item].
  repeat split.
  change (py "<") with [lt_sign].
  apply replace_char_absent. vm_compute.
  intros H. repeat (destruct H as [H | H]; [discriminate|]). exact H.
Qed.

Lemma SAPI5_text_fragment_has_no_lt_witness :
  let D := Demo.driver SAPI5 SAPI5 in
  exists st' before fragment,
    step D (initial D) (Text (py "a</pitch><b")) = Ok st'
    /\ calls st' = calls (initial D)
    /\ textList st' = before ++ [fragment]
    /\ ~ In lt_sign fragment.
Proof.
  cbv zeta. apply SAPI5_text_fragment_has_no_lt. reflexivity.
Defined.

(** * The keyboard hook (hook.py)

    [Hook.hook_callback] with the attributes of the [Hook] object as a
    record.  [self.pressed] is a Python set of key codes: a list without
    repetition, with [set_add] and [set_remove] of the Standard Library
    ([set.remove] of an absent key raises [KeyError], which the callback
    swallows).  What the callback does to the task manager is returned as a
    list of actions. *)

Module Hook.

Record hook := {
  pressed : set Z;
  pressed_max_count : Z;
  reset_flag : bool
}.

(** [Hook.__init__] *)
Definition init : hook :=
  {| pressed := empty_set Z; pressed_max_count := 0; reset_flag := false |}.

(** [kwargs['pressed']] and [kwargs['vk_code']] *)
Record event := { ev_pressed : bool; vk_code : Z }.

Inductive action := Reset | Cancel.   (* taskManager.reset(), taskManager.cancel() *)

Section Callback.
(** The key codes of [winUser] the callback does not count. *)
Variables VK_SHIFT VK_LSHIFT VK_RSHIFT VK_VOLUME_DOWN VK_VOLUME_UP : Z.

Definition ignored : list Z :=
  [VK_SHIFT; VK_LSHIFT; VK_RSHIFT; VK_VOLUME_DOWN; VK_VOLUME_UP].

Definition is_ignored (vk : Z) : bool := existsb (Z.eqb vk) ignored.

Definition len (s : set Z) : Z := Z.of_nat (List.length s).

(** The last statements of the callback: the maximum is updated, and when
    no key is down any more the flag is set after one or two keys and the
    maximum starts again from 0. *)
Definition count_keys (h : hook) : hook :=
  let count := Z.max (pressed_max_count h) (len (pressed h)) in
  if len (pressed h) =? 0 then
    {| pressed := pressed h;
       pressed_max_count := 0;
       reset_flag := if (1 <=? count) && (count <? 3) then true else reset_flag h |}
  else
    {| pressed := pressed h; pressed_max_count := count; reset_flag := reset_flag h |}.

(** [hook_callback], from its two keyword arguments.  [taskManager] is
    [None] when [voiceManager.taskManager] is false, else its [block]
    attribute.  The callback always returns [False]. *)
Definition hook_callback (taskManager : option bool) (h : hook) (ev : event)
    : hook * list action :=
  match taskManager with
  | None | Some false => (h, [])
  | Some true =>
      if ev_pressed ev && negb (is_ignored (vk_code ev)) then
        let acts := if reset_flag h then [Reset; Cancel] else [] in
        (count_keys {| pressed := set_add Z.eq_dec (vk_code ev) (pressed h);
                       pressed_max_count := pressed_max_count h;
                       reset_flag := false |},
         acts)
      else if negb (ev_pressed ev) then
        (count_keys {| pressed := set_remove Z.eq_dec (vk_code ev) (pressed h);
                       pressed_max_count := pressed_max_count h;
                       reset_flag := reset_flag h |},
         [])
      else (count_keys h, [])
  end.

(** A series of callbacks, each with the task manager as it is then. *)
Fixpoint callbacks (h : hook) (evs : list (option bool * event))
    : hook * list action :=
  match evs with
  | [] => (h, [])
  | (taskManager, ev) :: rest =>
      let '(h1, a1) := hook_callback taskManager h ev in
      let '(h2, a2) := callbacks h1 rest in
      (h2, a1 ++ a2)
  end.

(** A key going down, a key going up, while the task manager blocks. *)
Definition press (vk : Z) : option bool * event :=
  (Some true, {| ev_pressed := true; vk_code := vk |}).
Definition release (vk : Z) : option bool * event :=
  (Some true, {| ev_pressed := false; vk_code := vk |}).

(** What the callback keeps true of the object. *)
Definition consistent (h : hook) : Prop :=
  NoDup (pressed h)
  /\ Forall (fun vk => is_ignored vk = false) (pressed h)
  /\ (pressed h = [] -> pressed_max_count h = 0)
  /\ len (pressed h) <= pressed_max_count h.

Lemma len_zero s : (len s =? 0) = true <-> s = [].
Proof.
  unfold len. rewrite Z.eqb_eq. destruct s; simpl; split; try reflexivity;
    try discriminate; lia.
Qed.

Lemma count_keys_consistent h :
  NoDup (pressed h) -> Forall (fun vk => is_ignored vk = false) (pressed h) ->
  consistent (count_keys h).
Proof.
  intros Hn Hf. unfold consistent, count_keys.
  destruct (len (pressed h) =? 0) eqn:E; simpl.
  - apply len_zero in E. rewrite E. unfold len. simpl. repeat split; auto.
    + constructor.
    + lia.
  - repeat split; auto.
    + intros H. apply len_zero in H. congruence.
    + lia.
Qed.

Lemma hook_callback_consistent taskManager h ev :
  consistent h -> consistent (fst (hook_callback taskManager h ev)).
Proof.
  intros Hc. pose proof Hc as (Hn & Hf & _).
  unfold hook_callback.
  destruct taskManager as [[|]|]; [|exact Hc|exact Hc].
  destruct (ev_pressed ev && negb (is_ignored (vk_code ev))) eqn:E; simpl.
  - apply andb_true_iff in E. destruct E as [_ E]. apply negb_true_iff in E.
    apply count_keys_consistent; simpl.
    + apply set_add_nodup. exact Hn.
    + apply Forall_forall. intros x Hx. apply set_add_elim in Hx.
      destruct Hx as [-> | Hx]; [exact E|].
      rewrite Forall_forall in Hf. apply Hf. exact Hx.
  - destruct (negb (ev_pressed ev)); simpl.
    + apply count_keys_consistent; simpl.
      * apply set_remove_nodup. exact Hn.
      * apply Forall_forall. intros x Hx. apply set_remove_1 in Hx.
        rewrite Forall_forall in Hf. apply Hf. exact Hx.
    + apply count_keys_consistent; assumption.
Qed.

Lemma callbacks_consistent evs : forall h,
  consistent h -> consistent (fst (callbacks h evs)).
Proof.
  induction evs as [|[tm ev] evs IH]; intros h Hc; simpl; [exact Hc|].
  pose proof (hook_callback_consistent tm h ev Hc) as H1.
  destruct (hook_callback tm h ev) as [h1 a1]. simpl in H1.
  specialize (IH h1 H1). destruct (callbacks h1 evs) as [h2 a2]. exact IH.
Qed.

Lemma set_add_new (a : Z) (x : set Z) :
  ~ In a x -> set_add Z.eq_dec a x = x ++ [a].
Proof.
  induction x as [|b x IH]; intros H; simpl; [reflexivity|].
  destruct (Z.eq_dec a b) as [->|_]; [elim H; left; reflexivity|].
  rewrite IH; [reflexivity|]. intros Hin. apply H. right. exact Hin.
Qed.

Lemma set_remove_perm (r : Z) (p : set Z) (rs : list Z) :
  Permutation p (r :: rs) -> Permutation (set_remove Z.eq_dec r p) rs.
Proof.
  intros H.
  assert (Hin : In r p).
  { apply (Permutation_in r (Permutation_sym H)). left. reflexivity. }
  assert (Hp : Permutation p (r :: set_remove Z.eq_dec r p)).
  { clear H. induction p as [|x p IH]; [destruct Hin|]. simpl.
    destruct (Z.eq_dec r x) as [->|Hne]; [reflexivity|].
    destruct Hin as [->|Hin]; [congruence|].
    etransitivity; [apply perm_skip, (IH Hin) | apply perm_swap]. }
  apply (Permutation_cons_inv (a := r)).
  etransitivity; [symmetry; exact Hp | exact H].
Qed.

(** The keys [ks] go down one after the other. *)
Lemma press_all ks : forall h,
  NoDup (pressed h ++ ks) ->
  Forall (fun vk => is_ignored vk = false) ks ->
  pressed_max_count h <= len (pressed h) ->
  ks <> [] ->
  callbacks h (map press ks)
  = ({| pressed := pressed h ++ ks;
        pressed_max_count := len (pressed h ++ ks);
        reset_flag := false |},
     if reset_flag h then [Reset; Cancel] else []).
Proof.
  induction ks as [|k ks IH]; intros h Hn Hf Hc Hne; [contradiction|].
  inversion Hf as [|? ? Hk Hks]; subst.
  assert (Hnew : ~ In k (pressed h)).
  { apply NoDup_remove_2 in Hn. intros Hin. apply Hn.
    apply in_or_app. left. exact Hin. }
  cbn [map callbacks press hook_callback ev_pressed vk_code andb].
  rewrite Hk. cbn [negb]. rewrite (set_add_new _ _ Hnew).
  unfold count_keys at 1. cbn [pressed pressed_max_count reset_flag].
  replace (len (pressed h ++ [k]) =? 0) with false
    by (symmetry; apply Z.eqb_neq; unfold len; rewrite length_app; simpl; lia).
  replace (Z.max (pressed_max_count h) (len (pressed h ++ [k])))
    with (len (pressed h ++ [k]))
    by (unfold len in *; rewrite length_app; simpl; lia).
  destruct ks as [|k' ks'].
  - simpl. rewrite app_nil_r. reflexivity.
  - rewrite IH; cbn [pressed pressed_max_count reset_flag].
    + rewrite <- app_assoc. cbn [app].
      destruct (reset_flag h); reflexivity.
    + rewrite <- app_assoc. exact Hn.
    + exact Hks.
    + lia.
    + discriminate.
Qed.

(** The keys [rs], all that are down, go up one after the other. *)
Lemma release_all rs : forall h,
  Permutation (pressed h) rs -> rs <> [] ->
  len (pressed h) <= pressed_max_count h ->
  callbacks h (map release rs)
  = ({| pressed := [];
        pressed_max_count := 0;
        reset_flag := if (1 <=? pressed_max_count h) && (pressed_max_count h <? 3)
                      then true else reset_flag h |},
     []).
Proof.
  induction rs as [|r rs IH]; intros h Hp Hne Hc; [contradiction|].
  cbn [map callbacks release hook_callback ev_pressed vk_code andb negb].
  pose proof (set_remove_perm _ _ _ Hp) as Hp'.
  assert (Hlen : len (pressed h) = len (set_remove Z.eq_dec r (pressed h)) + 1).
  { unfold len. rewrite (Permutation_length Hp), (Permutation_length Hp').
    simpl. lia. }
  unfold count_keys at 1. cbn [pressed pressed_max_count reset_flag].
  destruct rs as [|r' rs'].
  - apply Permutation_sym, Permutation_nil in Hp'. rewrite Hp'. simpl.
    replace (Z.max (pressed_max_count h) (len [])) with (pressed_max_count h)
      by (unfold len in *; simpl; lia).
    reflexivity.
  - replace (len (set_remove Z.eq_dec r (pressed h)) =? 0) with false
      by (symmetry; apply Z.eqb_neq; unfold len;
          rewrite (Permutation_length Hp'); simpl; lia).
    replace (Z.max (pressed_max_count h) (len (set_remove Z.eq_dec r (pressed h))))
      with (pressed_max_count h) by lia.
    rewrite IH; cbn [pressed pressed_max_count reset_flag];
      [reflexivity | exact Hp' | discriminate | lia].
Qed.

Lemma callbacks_app evs1 evs2 h :
  callbacks h (evs1 ++ evs2)
  = let '(h1, a1) := callbacks h evs1 in
    let '(h2, a2) := callbacks h1 evs2 in
    (h2, a1 ++ a2).
Proof.
  revert h. induction evs1 as [|[tm ev] evs1 IH]; intros h; simpl.
  - destruct (callbacks h evs2). reflexivity.
  - destruct (hook_callback tm h ev) as [h1 a1]. rewrite IH.
    destruct (callbacks h1 evs1) as [h2 a2].
    destruct (callbacks h2 evs2) as [h3 a3].
    rewrite app_assoc. reflexivity.
Qed.

End Callback.
End Hook.

(** X24. From a new [Hook] object, whatever the callbacks: the set of keys
    held never contains one of the five keys the callback does not count,
    and the recorded maximum is 0 when no key is held and at least the
    number of keys held otherwise. *)
Theorem hook_stays_consistent (VK_SHIFT VK_LSHIFT VK_RSHIFT VK_VOLUME_DOWN
    VK_VOLUME_UP : Z) (evs : list (option bool * Hook.event)) :
  Hook.consistent VK_SHIFT VK_LSHIFT VK_RSHIFT VK_VOLUME_DOWN VK_VOLUME_UP
    (fst (Hook.callbacks VK_SHIFT VK_LSHIFT VK_RSHIFT VK_VOLUME_DOWN VK_VOLUME_UP
            Hook.init evs)).
Proof.
  apply Hook.callbacks_consistent.
  unfold Hook.consistent, Hook.init, Hook.len. simpl.
  repeat split; auto; [constructor | lia].
Qed.

(** X25. The callback resets and cancels the task manager only together,
    only when the task manager blocks, the flag is set and a counted key
    goes down; that callback clears the flag. *)
Theorem hook_reset_needs_flag (VK_SHIFT VK_LSHIFT VK_RSHIFT VK_VOLUME_DOWN
    VK_VOLUME_UP : Z) (taskManager : option bool) (h : Hook.hook)
    (ev : Hook.event) :
  let r := Hook.hook_callback VK_SHIFT VK_LSHIFT VK_RSHIFT VK_VOLUME_DOWN
             VK_VOLUME_UP taskManager h ev in
  snd r = []
  \/ (snd r = [Hook.Reset; Hook.Cancel]
      /\ taskManager = Some true
      /\ Hook.reset_flag h = true
      /\ Hook.ev_pressed ev = true
      /\ Hook.is_ignored VK_SHIFT VK_LSHIFT VK_RSHIFT VK_VOLUME_DOWN VK_VOLUME_UP
           (Hook.vk_code ev) = false
      /\ Hook.reset_flag (fst r) = false).
Proof.
  cbv zeta. unfold Hook.hook_callback.
  destruct taskManager as [[|]|]; [|left; reflexivity|left; reflexivity].
  destruct (Hook.ev_pressed ev) eqn:Ep; cbn [andb negb].
  - destruct (Hook.is_ignored _ _ _ _ _ (Hook.vk_code ev)) eqn:Ei; cbn [negb];
      [left; reflexivity|].
    destruct (Hook.reset_flag h) eqn:Ef; [right|left; reflexivity].
    cbn [fst snd]. repeat split.
    unfold Hook.count_keys. cbn [Hook.pressed Hook.reset_flag].
    replace (Hook.len (set_add Z.eq_dec (Hook.vk_code ev) (Hook.pressed h)) =? 0)
      with false; [reflexivity|].
    symmetry. apply Z.eqb_neq. intros H. apply Z.eqb_eq, Hook.len_zero in H.
    eapply set_add_not_empty. exact H.
  - left. reflexivity.
Qed.

(** X26. With the task manager blocking and no key held, a chord of
    distinct counted keys that go down and then all go up again, in any
    order, leaves no key held and the maximum at 0, and sets the flag exactly
    when the chord had one or two keys; the task manager is reset and
    cancelled during the chord exactly when the flag was set before it. *)
Theorem hook_chord (VK_SHIFT VK_LSHIFT VK_RSHIFT VK_VOLUME_DOWN VK_VOLUME_UP : Z)
    (h : Hook.hook) (ks rs : list Z) :
  Hook.pressed h = [] -> Hook.pressed_max_count h = 0 ->
  NoDup ks -> ks <> [] -> Permutation ks rs ->
  Forall (fun vk => Hook.is_ignored VK_SHIFT VK_LSHIFT VK_RSHIFT VK_VOLUME_DOWN
                      VK_VOLUME_UP vk = false) ks ->
  Hook.callbacks VK_SHIFT VK_LSHIFT VK_RSHIFT VK_VOLUME_DOWN VK_VOLUME_UP h
    (map Hook.press ks ++ map Hook.release rs)
  = ({| Hook.pressed := [];
        Hook.pressed_max_count := 0;
        Hook.reset_flag := (List.length ks <? 3)%nat |},
     if Hook.reset_flag h then [Hook.Reset; Hook.Cancel] else []).
Proof.
  intros Hp Hc Hn Hne Hperm Hf.
  rewrite Hook.callbacks_app.
  rewrite Hook.press_all; rewrite ?Hp; try assumption;
    [|rewrite Hc; unfold Hook.len; simpl; lia].
  cbn [app].
  rewrite Hook.release_all; cbn [Hook.pressed Hook.pressed_max_count Hook.reset_flag].
  - rewrite app_nil_r. f_equal. f_equal.
    unfold Hook.len. destruct ks as [|a [|b [|c ks]]]; try reflexivity.
    + contradiction.
    + simpl List.length.
      replace (1 <=? Z.of_nat (S (S (S (List.length ks))))) with true
        by (symmetry; apply Z.leb_le; lia).
      replace (Z.of_nat (S (S (S (List.length ks)))) <? 3) with false
        by (symmetry; apply Z.ltb_ge; lia).
      reflexivity.
  - exact Hperm.
  - intros ->. apply Permutation_sym, Permutation_nil in Hperm. contradiction.
  - lia.
Qed.

Lemma hook_chord_witness :
  Hook.callbacks 16 160 161 174 175 Hook.init
    (map Hook.press [65; 66] ++ map Hook.release [66; 65])
  = ({| Hook.pressed := [];
        Hook.pressed_max_count := 0;
        Hook.reset_flag := (List.length [65; 66] <? 3)%nat |},
     if Hook.reset_flag Hook.init then [Hook.Reset; Hook.Cancel] else []).
Proof.
  apply hook_chord; try reflexivity.
  - repeat constructor; simpl; intuition lia.
  - discriminate.
  - apply perm_swap.
  - repeat constructor.
Defined.

(** * The stub generator (grpclib/plugin/main.py)

    The functions that compute names, and the line buffer. *)

Module Plugin.

Definition dash : char := 45%N.
Definition slash : char := 47%N.
Definition newline : char := 10%N.

(** [s.endswith(suffix)] *)
Definition endswith (s suffix : pystr) : bool := starts_with (rev suffix) (rev s).

(** [s[:-n]] for a positive [n] *)
Definition drop_last (n : nat) (s : pystr) : pystr := firstn (List.length s - n) s.

(** [_strip_proto(proto_file_path)] *)
Definition _strip_proto (proto_file_path : pystr) : pystr :=
  if endswith proto_file_path (py ".protodevel")
  then drop_last (List.length (py ".protodevel")) proto_file_path
  else if endswith proto_file_path (py ".proto")
  then drop_last (List.length (py ".proto")) proto_file_path
  else proto_file_path.

(** [_base_module_name(proto_file_path)] *)
Definition _base_module_name (proto_file_path : pystr) : pystr :=
  let basename := _strip_proto proto_file_path in
  replace [slash] [dot] (replace [dash] (py "_") basename).

(** [_proto2pb2_module_name(proto_file_path)] *)
Definition _proto2pb2_module_name (proto_file_path : pystr) : pystr :=
  _base_module_name proto_file_path ++ py "_pb2".

(** [_proto2grpc_module_name(proto_file_path)] *)
Definition _proto2grpc_module_name (proto_file_path : pystr) : pystr :=
  _base_module_name proto_file_path ++ py "_grpc".

(** The name [main] gives the generated file:
    [module_name.replace(".", "/") + ".py"]. *)
Definition generated_file_name (file_to_generate : pystr) : pystr :=
  replace [dot] [slash] (_proto2grpc_module_name file_to_generate) ++ py ".py".

(** A message descriptor with its nested types, and the part of a file
    descriptor [_type_names] reads. *)
#[warnings="-register-all"]
Inductive message := Message (name : pystr) (nested_type : list message).

Record proto_file := { pf_name : pystr; pf_package : pystr }.

(** [_type_names(proto_file, message_type, parents)]: the pairs the
    generator yields, in order.  [parents] is the deque as it is when the
    generator is entered; it is extended for the nested types and restored
    after them. *)
Fixpoint _type_names (pf : proto_file) (parents : list pystr) (m : message)
    : list (pystr * pystr) :=
  match m with
  | Message name nested_type =>
      let proto_name_parts :=
        [[]] ++ (match pf_package pf with [] => [] | _ :: _ => [pf_package pf] end)
        ++ parents ++ [name] in
      let py_name_parts :=
        [_proto2pb2_module_name (pf_name pf)] ++ parents ++ [name] in
      (join [dot] proto_name_parts, join [dot] py_name_parts)
      :: flat_map (_type_names pf (parents ++ [name])) nested_type
  end.

Fixpoint message_count (m : message) : nat :=
  match m with
  | Message _ nested_type => S (list_sum (map message_count nested_type))
  end.

(** [Buffer]: its lines and its indentation. *)
Record Buffer := { _lines : list pystr; _indent : Z }.

(** [Buffer.__init__] *)
Definition Buffer_init : Buffer := {| _lines := []; _indent := 0 |}.

Fixpoint lstrip_space (s : pystr) : pystr :=
  match s with
  | c :: s' => if N.eqb c space then lstrip_space s' else s
  | [] => []
  end.

(** [line.rstrip(" ")] *)
Definition rstrip_space (s : pystr) : pystr := rev (lstrip_space (rev s)).

(** [Buffer.add(string)], the string already formatted. *)
Definition add (string : pystr) (b : Buffer) : Buffer :=
  let line := repeat space (Z.to_nat (_indent b * 4)) ++ string in
  {| _lines := _lines b ++ [rstrip_space line]; _indent := _indent b |}.

(** Entering and leaving [with buf.indent():]. *)
Definition indent_enter (b : Buffer) : Buffer :=
  {| _lines := _lines b; _indent := _indent b + 1 |}.
Definition indent_leave (b : Buffer) : Buffer :=
  {| _lines := _lines b; _indent := _indent b - 1 |}.

(** [Buffer.content()] *)
Definition content (b : Buffer) : pystr := join [newline] (_lines b) ++ [newline].

(** What a user of the buffer does to it. *)
Inductive op := Add (string : pystr) | Enter | Leave.

Definition apply_op (b : Buffer) (o : op) : Buffer :=
  match o with
  | Add string => add string b
  | Enter => indent_enter b
  | Leave => indent_leave b
  end.

End Plugin.

Section PluginFacts.
Import Plugin.

Lemma replace_char_keeps_absent (x c : char) (new s : pystr) :
  ~ In x s -> ~ In x new -> ~ In x (replace [c] new s).
Proof.
  intros Hs Hn. rewrite replace_char. intros H.
  apply in_flat_map in H. destruct H as (y & Hy & Hx).
  destruct (N.eqb c y); [contradiction|].
  destruct Hx as [<- | []]. contradiction.
Qed.

Lemma replace_char_app (c : char) (new a b : pystr) :
  replace [c] new (a ++ b) = replace [c] new a ++ replace [c] new b.
Proof. rewrite !replace_char. apply flat_map_app. Qed.

Lemma replace_char_none (c : char) (new s : pystr) :
  ~ In c s -> replace [c] new s = s.
Proof.
  rewrite replace_char. induction s as [|x s IH]; intros H; simpl; [reflexivity|].
  destruct (N.eqb_spec c x) as [->|_]; [elim H; left; reflexivity|].
  simpl. rewrite IH; [reflexivity|]. intros Hin. apply H. right. exact Hin.
Qed.

(** Putting back the characters that were turned into another one. *)
Lemma replace_char_back (a b : char) (s : pystr) :
  ~ In b s -> replace [b] [a] (replace [a] [b] s) = s.
Proof.
  rewrite !replace_char. revert a b.
  induction s as [|x s IH]; intros a b H; [reflexivity|].
  assert (Hx : b <> x) by (intros ->; apply H; left; reflexivity).
  assert (Hs : ~ In b s) by (intros Hin; apply H; right; exact Hin).
  change (x :: s) with ([x] ++ s).
  rewrite !flat_map_app. f_equal; [|exact (IH a b Hs)].
  cbn [flat_map]. rewrite app_nil_r.
  destruct (N.eqb_spec a x) as [->|Hne]; cbn [flat_map app].
  - rewrite N.eqb_refl. reflexivity.
  - destruct (N.eqb_spec b x) as [E|_]; [congruence | reflexivity].
Qed.

Lemma lstrip_space_head s :
  match lstrip_space s with c :: _ => c <> space | [] => True end.
Proof.
  induction s as [|c s IH]; simpl; [exact I|].
  destruct (N.eqb_spec c space); [exact IH | assumption].
Qed.

Lemma rstrip_space_last s : last_char None (rstrip_space s) <> Some space.
Proof.
  unfold rstrip_space. pose proof (lstrip_space_head (rev s)) as H.
  destruct (lstrip_space (rev s)) as [|c t]; simpl; [discriminate|].
  rewrite last_char_app. simpl. congruence.
Qed.

Lemma rstrip_space_all n : rstrip_space (repeat space n) = [].
Proof.
  unfold rstrip_space.
  assert (H : forall l, Forall (fun c => c = space) l -> lstrip_space l = []).
  { induction 1 as [|c l -> _ IH]; [reflexivity|]. simpl. exact IH. }
  rewrite H; [reflexivity|].
  apply Forall_rev. apply Forall_forall. intros c Hc.
  apply repeat_spec in Hc. exact Hc.
Qed.

Lemma join_empty_first (sep : pystr) (l : list pystr) :
  l <> [] -> join sep ([] :: l) = sep ++ join sep l.
Proof. destruct l; [contradiction | reflexivity]. Qed.

Lemma type_names_facts pf : forall m parents,
  List.length (_type_names pf parents m) = message_count m
  /\ Forall (fun p => exists t, fst p = dot :: t) (_type_names pf parents m).
Proof.
  fix IH 1. intros [name nested] parents. cbn [_type_names message_count].
  assert (N : List.length (flat_map (_type_names pf (parents ++ [name])) nested)
              = list_sum (map message_count nested)
              /\ Forall (fun p => exists t, fst p = dot :: t)
                   (flat_map (_type_names pf (parents ++ [name])) nested)).
  { induction nested as [|m nested IHn]; [split; [reflexivity | constructor]|].
    cbn [flat_map map list_sum]. rewrite length_app.
    destruct (IH m (parents ++ [name])) as [H1 H2].
    destruct IHn as [H3 H4].
    split; [rewrite H1, H3; reflexivity | apply Forall_app; auto]. }
  destruct N as [N1 N2]. split.
  - cbn [List.length]. rewrite N1. reflexivity.
  - constructor; [|exact N2].
    cbn [fst]. change ([[]] ++ ?l) with ([] :: l).
    rewrite join_empty_first; [cbn [app]; eauto|].
    destruct (pf_package pf); [|discriminate].
    destruct parents; discriminate.
Qed.

End PluginFacts.

(** X27. The module name computed from a proto file path contains no
    dash and no slash. *)
Theorem module_name_has_no_dash_or_slash (proto_file_path : pystr) :
  ~ In Plugin.dash (Plugin._base_module_name proto_file_path)
  /\ ~ In Plugin.slash (Plugin._base_module_name proto_file_path).
Proof.
  unfold Plugin._base_module_name. split.
  - apply replace_char_keeps_absent.
    + apply replace_char_absent. vm_compute. intros [H|[]]. discriminate.
    + vm_compute. intros [H|[]]. discriminate.
  - apply replace_char_absent. vm_compute. intros [H|[]]. discriminate.
Qed.

(** X28. When the path, without its proto suffix, contains no dot, the
    name of the generated file is that path with every dash replaced by an
    underscore, followed by "_grpc.py": the directories of the path are
    kept. *)
Theorem generated_file_keeps_directories (file_to_generate : pystr) :
  ~ In dot (Plugin._strip_proto file_to_generate) ->
  Plugin.generated_file_name file_to_generate
  = replace [Plugin.dash] (py "_") (Plugin._strip_proto file_to_generate)
    ++ py "_grpc.py".
Proof.
  intros H.
  unfold Plugin.generated_file_name, Plugin._proto2grpc_module_name,
    Plugin._base_module_name.
  rewrite replace_char_app, replace_char_back.
  - rewrite (replace_char_none dot [Plugin.slash] (py "_grpc")).
    + rewrite <- app_assoc. reflexivity.
    + vm_compute. intros Hin.
      repeat (destruct Hin as [Hin | Hin]; [discriminate|]). exact Hin.
  - apply replace_char_keeps_absent; [exact H|].
    vm_compute. intros [Hin|[]]. discriminate.
Qed.

Lemma generated_file_keeps_directories_witness :
  Plugin.generated_file_name (py "piper/voice-service.proto")
  = replace [Plugin.dash] (py "_") (Plugin._strip_proto (py "piper/voice-service.proto"))
    ++ py "_grpc.py".
Proof.
  apply generated_file_keeps_directories. vm_compute.
  intros H. repeat (destruct H as [H | H]; [discriminate|]). exact H.
Defined.

(** X29. [_type_names] yields one pair for every message of the tree,
    nested ones included, and every proto name it yields starts with a dot. *)
Theorem type_names_cover_messages (pf : Plugin.proto_file) (m : Plugin.message)
    (parents : list pystr) :
  List.length (Plugin._type_names pf parents m) = Plugin.message_count m
  /\ Forall (fun p => exists t, fst p = dot :: t) (Plugin._type_names pf parents m).
Proof.
  apply type_names_facts.
Qed.

(** X30. Whatever is added to a new buffer, at whatever indentation, no
    line of it ends with a space; a line added as the empty string is empty;
    and the content is its lines, each followed by a newline character. *)
Theorem buffer_lines_have_no_trailing_space (ops : list Plugin.op) :
  let b := fold_left Plugin.apply_op ops Plugin.Buffer_init in
  Forall (fun line => last_char None line <> Some space) (Plugin._lines b)
  /\ Plugin._lines (Plugin.add [] b) = Plugin._lines b ++ [[]]
  /\ Plugin.content b = flat_map (fun line => line ++ [Plugin.newline]) (Plugin._lines b)
                        ++ match Plugin._lines b with [] => [Plugin.newline] | _ => [] end.
Proof.
  cbv zeta. split; [|split].
  - assert (G : forall b, Forall (fun line => last_char None line <> Some space)
                            (Plugin._lines b) ->
                 Forall (fun line => last_char None line <> Some space)
                   (Plugin._lines (fold_left Plugin.apply_op ops b))).
    { induction ops as [|o ops IH]; intros b Hb; [exact Hb|].
      simpl. apply IH. destruct o; simpl; [|exact Hb|exact Hb].
      apply Forall_app. split; [exact Hb|].
      constructor; [apply rstrip_space_last | constructor]. }
    apply G. constructor.
  - unfold Plugin.add. simpl. rewrite app_nil_r, rstrip_space_all. reflexivity.
  - unfold Plugin.content.
    generalize (Plugin._lines (fold_left Plugin.apply_op ops Plugin.Buffer_init)).
    intros l. destruct l as [|x l]; [reflexivity|].
    rewrite app_nil_r. revert x.
    induction l as [|y l IH]; intros x.
    + simpl. rewrite app_nil_r. reflexivity.
    + change (join [Plugin.newline] (x :: y :: l))
        with (x ++ [Plugin.newline] ++ join [Plugin.newline] (y :: l)).
      rewrite <- !app_assoc, (IH y). cbn [flat_map]. rewrite <- !app_assoc.
      reflexivity.
Qed.
